(** * Distributed matrix multiplication (xv6 user program [user/matmul.c])

    A shallow embedding of [user/matmul.c]: the row partitioner
    [get_work_range], the reference kernel [multiply_reference], the
    verifier [compare_results], and [main] split into the code run by each
    forked child and the code run by the parent.

    Conventions.
    - A C [int] is a [Z] kept in the signed 32-bit range; every arithmetic
      operation of the source is followed by an explicit wrap-around
      ([Int32.wrap]).
    - [int M[N][N]] is a total function from row and column to [int].
    - The macros [N] and [P] are parameters of every definition; the values
      of the source ([N = 10], [P = 4]) are in module [Build].
    - A [for] loop whose counter is not assigned in its body is a fold over
      the list of the counter's values ([for_loop]); a loop left by [return]
      is [for_ret]; the two [while] loops of [main] take fuel, which is
      shown to be sufficient.
    - The observable behaviour of a process is the list of the system calls
      it makes ([event]), [printf] being one of them. *)

From Stdlib Require Import ZArith List Lia Bool Setoid Morphisms.
From coqutil Require Import Byte Word.LittleEndianList.
Import ListNotations.
Local Open Scope Z_scope.

(** ** The C type [int] *)

Module Int32.

Definition min_signed : Z := - 2 ^ 31.
Definition max_signed : Z := 2 ^ 31 - 1.

Definition in_range (x : Z) : Prop := min_signed <= x <= max_signed.

(** Reduction of an integer to the signed 32-bit value congruent to it. *)
Definition wrap (x : Z) : Z := (x + 2 ^ 31) mod 2 ^ 32 - 2 ^ 31.

Definition add (a b : Z) : Z := wrap (a + b).
Definition sub (a b : Z) : Z := wrap (a - b).
Definition mul (a b : Z) : Z := wrap (a * b).
(** C's [/] and [%] truncate towards zero. *)
Definition quot (a b : Z) : Z := wrap (Z.quot a b).
Definition rem (a b : Z) : Z := wrap (Z.rem a b).

End Int32.

(** ** Loops *)

(** The values [lo, lo+1, ..., hi-1] taken by a loop counter. *)
Definition zrange (lo hi : Z) : list Z :=
  map (fun k => lo + Z.of_nat k) (seq 0 (Z.to_nat (hi - lo))).

(** [for (i = lo; i < hi; i++) s = body i s;] *)
Definition for_loop {T : Type} (lo hi : Z) (body : Z -> T -> T) (s : T) : T :=
  fold_left (fun acc i => body i acc) (zrange lo hi) s.

(** A loop over the counter values [l] whose body may [return]: the result
    is the first returned value, or [None] when the loop runs to its end. *)
Fixpoint for_ret {R : Type} (l : list Z) (body : Z -> option R) : option R :=
  match l with
  | [] => None
  | i :: l' =>
      match body i with
      | Some v => Some v
      | None => for_ret l' body
      end
  end.

(** ** Global data *)

Definition Matrix : Type := Z -> Z -> Z.

Definition zero_matrix : Matrix := fun _ _ => 0.

(** [M[r][c] = v;] *)
Definition mset (M : Matrix) (r c v : Z) : Matrix :=
  fun r' c' => if (r' =? r) && (c' =? c) then v else M r' c'.

(** The four global arrays. *)
Record globals : Type := mkGlobals {
  A : Matrix;
  B : Matrix;
  C : Matrix;
  C_ref : Matrix
}.

Definition set_A (g : globals) (M : Matrix) : globals :=
  mkGlobals M (B g) (C g) (C_ref g).
Definition set_B (g : globals) (M : Matrix) : globals :=
  mkGlobals (A g) M (C g) (C_ref g).
Definition set_C (g : globals) (M : Matrix) : globals :=
  mkGlobals (A g) (B g) M (C_ref g).
Definition set_C_ref (g : globals) (M : Matrix) : globals :=
  mkGlobals (A g) (B g) (C g) M.

(** Globals of a C program start zeroed. *)
Definition globals0 : globals :=
  mkGlobals zero_matrix zero_matrix zero_matrix zero_matrix.

(** ** Console output and system calls *)

Inductive msg : Type :=
| MsgBanner (n1 n2 p : Z)
| MsgPipeFailed (i : Z)
| MsgForkFailed (i : Z)
| MsgChildWriteFailed (i : Z)
| MsgParentReadFailed (i : Z)
| MsgResultHeader
| MsgReferenceHeader
| MsgMatrix (rows : list (list Z))
| MsgSuccess
| MsgError.

Inductive pipe_end : Type := ReadEnd | WriteEnd.

Inductive event : Type :=
| EvPrint (m : msg)
| EvPipe (i ret : Z)
| EvFork (i ret : Z)
| EvClose (i : Z) (e : pipe_end)
| EvWrite (i requested ret : Z)
| EvRead (i requested ret : Z)
| EvWait
| EvExit (status : Z).

(** How a [while] loop was left. *)
Inductive loop_exit : Type := LoopDone | LoopBroke | OutOfFuel.

(** What the kernel does, as far as the program can tell: the return value
    of each [pipe] and [fork], for each pipe the values the successive
    [write] and [read] calls are inclined to return, and the bytes found on
    the parent's stack where [inbuf] is allocated. *)
Record env : Type := mkEnv {
  pipe_ret : Z -> Z;
  fork_ret : Z -> Z;
  write_sched : Z -> list Z;
  read_sched : Z -> list Z;
  stack : Z -> Z -> byte
}.

(** Modelled from the spec: the channel transport ([write] on a pipe; the
    kernel is not part of user/).  The channel is an ordered, reliable byte
    stream and a write may be partial.  A call asking for [n > 0] bytes of
    [src] returns the scheduled value, at most [n]; a positive return value
    [w] means the first [w] bytes of [src] were appended to the stream, any
    other value that nothing was.  Once the schedule is exhausted a write
    takes the whole request. *)
Definition sys_write (sched : list Z) (src : list byte) (n : Z)
  : Z * list byte * list Z :=
  let w := match sched with
           | [] => n
           | k :: _ => Z.min k n
           end in
  (w, firstn (Z.to_nat w) src, tl sched).

(** Modelled from the spec: the channel transport ([read] on a pipe).
    [stream] holds the bytes written to the pipe and not read yet, the
    writer having finished.  A call asking for [n > 0] bytes returns an
    error when the schedule says so, 0 at the end of the stream, and
    otherwise removes between 1 and [n] bytes from the front of the stream:
    as many as scheduled, or as many as possible once the schedule is
    exhausted. *)
Definition sys_read (sched : list Z) (stream : list byte) (n : Z)
  : Z * list byte * list byte * list Z :=
  let avail := Z.min n (Z.of_nat (length stream)) in
  let r := match sched with
           | [] => avail
           | k :: _ => if k <=? 0 then k else Z.min k avail
           end in
  (r, firstn (Z.to_nat r) stream, skipn (Z.to_nat r) stream, tl sched).

(** ** Buffers *)

(** A buffer seen through [char *]: byte offset to byte. *)
Definition buffer : Type := Z -> byte.

(** The bytes [data] stored at offset [off]. *)
Definition store (buf : buffer) (off : Z) (data : list byte) : buffer :=
  fun a =>
    if (off <=? a) && (a <? off + Z.of_nat (length data))
    then nth (Z.to_nat (a - off)) data Byte.x00
    else buf a.

(** [((int * ) buf)[idx]] on a little-endian machine. *)
Definition load_int (buf : buffer) (idx : Z) : Z :=
  Int32.wrap (le_combine [buf (4 * idx); buf (4 * idx + 1);
                          buf (4 * idx + 2); buf (4 * idx + 3)]).

(** The bytes of an [int] array. *)
Definition bytes_of_ints (l : list Z) : list byte := flat_map (le_split 4) l.

Record wstate : Type := mkW {
  w_written : Z;
  w_pipe : list byte;
  w_sched : list Z;
  w_trace : list event
}.

Record rstate : Type := mkR {
  r_offset : Z;
  r_inbuf : buffer;
  r_stream : list byte;
  r_sched : list Z;
  r_trace : list event
}.

Section Program.

Variables N P : Z.

(** ** [init_matrices] *)
Definition init_matrices (g : globals) : globals :=
  for_loop 0 N (fun i g =>
    for_loop 0 N (fun j g =>
      let g := set_A g (mset (A g) i j (Int32.add (Int32.add i j) 1)) in
      set_B g (mset (B g) i j (if i =? j then 2 else 1))) g) g.

(** ** [multiply_reference] *)
Definition multiply_reference (g : globals) : globals :=
  for_loop 0 N (fun i g =>
    for_loop 0 N (fun j g =>
      let sum :=
        for_loop 0 N (fun k sum =>
          Int32.add sum (Int32.mul (A g i k) (B g k j))) 0 in
      set_C_ref g (mset (C_ref g) i j sum)) g) g.

(** ** [print_matrix]: the numbers printed, line by line *)
Definition print_matrix (M : Matrix) : msg :=
  MsgMatrix (map (fun i => map (fun j => M i j) (zrange 0 N)) (zrange 0 N)).

(** ** [compare_results] *)
Definition compare_results (g : globals) : Z :=
  match
    for_ret (zrange 0 N) (fun i =>
      for_ret (zrange 0 N) (fun j =>
        if negb (C g i j =? C_ref g i j) then Some 1 else None))
  with
  | Some v => v
  | None => 0
  end.

(** ** [get_work_range]: the pair [( *start, *end)] *)
Definition get_work_range (process_id : Z) : Z * Z :=
  let base_rows := Int32.quot N P in
  let extra_rows := Int32.rem N P in
  if process_id <? extra_rows then
    let start := Int32.mul process_id (Int32.add base_rows 1) in
    (start, Int32.add (Int32.add start base_rows) 1)
  else
    let start :=
      Int32.add (Int32.mul extra_rows (Int32.add base_rows 1))
                (Int32.mul (Int32.sub process_id extra_rows) base_rows) in
    (start, Int32.add start base_rows).

(** [(end - start) * N], the number of [int]s in a block. *)
Definition block_count (start end_ : Z) : Z :=
  Int32.mul (Int32.sub end_ start) N.

(** [sizeof(int) * count] converted to [int]: the product is computed in
    [size_t] and the conversion keeps its low 32 bits. *)
Definition block_bytes (count : Z) : Z := Int32.wrap (4 * count).

(** ** [main], the child's branch *)

(** The rows [start .. end-1] of the product, appended to [outbuf] in
    row-major order ([outbuf[idx++] = sum]). *)
Definition child_compute (g : globals) (start end_ : Z) : list Z :=
  for_loop start end_ (fun r outbuf =>
    for_loop 0 N (fun c outbuf =>
      let sum :=
        for_loop 0 N (fun k sum =>
          Int32.add sum (Int32.mul (A g r k) (B g k c))) 0 in
      outbuf ++ [sum]) outbuf) [].

(** [while (written < bytes) { w = write(...); if (w <= 0) { printf; break; }
    written += w; }] *)
Fixpoint write_loop (fuel : nat) (i : Z) (outbuf : list byte) (bytes : Z)
    (st : wstate) : loop_exit * wstate :=
  if w_written st <? bytes then
    match fuel with
    | O => (OutOfFuel, st)
    | S fuel' =>
        let n := Int32.sub bytes (w_written st) in
        let '(w, sent, sched') :=
          sys_write (w_sched st) (skipn (Z.to_nat (w_written st)) outbuf) n in
        let t := w_trace st ++ [EvWrite i n w] in
        if w <=? 0 then
          (LoopBroke,
           mkW (w_written st) (w_pipe st ++ sent) sched'
               (t ++ [EvPrint (MsgChildWriteFailed i)]))
        else
          write_loop fuel' i outbuf bytes
            (mkW (Int32.add (w_written st) w) (w_pipe st ++ sent) sched' t)
    end
  else (LoopDone, st).

(** The state in which child [i] leaves its write loop. *)
Definition child_send (e : env) (g : globals) (i : Z) : loop_exit * wstate :=
  let '(start, end_) := get_work_range i in
  let out_count := block_count start end_ in
  let outbuf := child_compute g start end_ in
  let bytes := block_bytes out_count in
  write_loop (Z.to_nat bytes) i (bytes_of_ints outbuf) bytes
    (mkW 0 [] (write_sched e i) [EvClose i ReadEnd]).

(** Child [i], forked with the globals [g]: its system calls, and the bytes
    it has put into its pipe when it exits. *)
Definition child (e : env) (g : globals) (i : Z) : list event * list byte :=
  let st := snd (child_send e g i) in
  (w_trace st ++ [EvClose i WriteEnd; EvExit 0], w_pipe st).

(** ** [main], the parent's branch *)

(** [while (offset < bytes) { r = read(...); if (r <= 0) { printf; break; }
    offset += r; }] *)
Fixpoint read_loop (fuel : nat) (i : Z) (bytes : Z) (st : rstate)
    : loop_exit * rstate :=
  if r_offset st <? bytes then
    match fuel with
    | O => (OutOfFuel, st)
    | S fuel' =>
        let n := Int32.sub bytes (r_offset st) in
        let '(r, data, rest, sched') :=
          sys_read (r_sched st) (r_stream st) n in
        let buf := store (r_inbuf st) (r_offset st) data in
        let t := r_trace st ++ [EvRead i n r] in
        if r <=? 0 then
          (LoopBroke,
           mkR (r_offset st) buf rest sched'
               (t ++ [EvPrint (MsgParentReadFailed i)]))
        else
          read_loop fuel' i bytes
            (mkR (Int32.add (r_offset st) r) buf rest sched' t)
    end
  else (LoopDone, st).

(** The state in which the parent leaves its read loop for child [i], whose
    pipe holds [stream]. *)
Definition parent_read (e : env) (stream : list byte) (i : Z)
  : loop_exit * rstate :=
  let '(start, end_) := get_work_range i in
  let in_count := block_count start end_ in
  let bytes := block_bytes in_count in
  read_loop (Z.to_nat bytes) i bytes
    (mkR 0 (stack e i) stream (read_sched e i) [EvClose i WriteEnd]).

(** [idx = 0; for (r = start; r < end; r++) for (c = 0; c < N; c++)
    C[r][c] = inbuf[idx++];] *)
Definition copy_block (inbuf : buffer) (start end_ : Z) (g : globals)
  : globals :=
  fst (for_loop start end_ (fun r s =>
         for_loop 0 N (fun c s =>
           let '(g, idx) := s in
           (set_C g (mset (C g) r c (load_int inbuf idx)), Int32.add idx 1))
           s) (g, 0)).

(** One iteration of the collection loop (STEP 4). *)
Definition collect_one (e : env) (streams : Z -> list byte) (i : Z)
    (s : globals * list event) : globals * list event :=
  let '(g, t) := s in
  let '(start, end_) := get_work_range i in
  let st := snd (parent_read e (streams i) i) in
  (copy_block (r_inbuf st) start end_ g,
   t ++ r_trace st ++ [EvClose i ReadEnd]).

(** STEP 2: [pipe] for each child; [false] when the parent has exited. *)
Fixpoint setup_pipes (e : env) (l : list Z) : list event * bool :=
  match l with
  | [] => ([], true)
  | i :: l' =>
      let ret := pipe_ret e i in
      if ret <? 0 then
        ([EvPipe i ret; EvPrint (MsgPipeFailed i); EvExit 1], false)
      else
        let '(t, ok) := setup_pipes e l' in (EvPipe i ret :: t, ok)
  end.

(** STEP 3 as the parent sees it ([fork] returns 0 only in the child, whose
    branch is [child]); [false] when the parent has exited. *)
Fixpoint spawn (e : env) (l : list Z) : list event * bool :=
  match l with
  | [] => ([], true)
  | i :: l' =>
      let ret := fork_ret e i in
      if ret <? 0 then
        ([EvFork i ret; EvPrint (MsgForkFailed i); EvExit 1], false)
      else
        let '(t, ok) := spawn e l' in (EvFork i ret :: t, ok)
  end.

(** STEP 5 and STEP 6. *)
Definition report (g : globals) : list event :=
  map (fun _ => EvWait) (zrange 0 P)
  ++ [EvPrint MsgResultHeader; EvPrint (print_matrix (C g));
      EvPrint MsgReferenceHeader; EvPrint (print_matrix (C_ref g));
      EvPrint (if compare_results g =? 0 then MsgSuccess else MsgError);
      EvExit 0].

(** The bytes each child leaves in its pipe; the children are forked with
    the parent's globals [g]. *)
Definition pipes_content (e : env) (g : globals) : Z -> list byte :=
  fun i => snd (child e g i).

(** [main] from the call of [multiply_reference] on, in the parent, started
    with the globals [g1]: the parent's system calls and its globals when it
    exits.  The data flows one way, from each child to the parent, and a
    child depends on nothing the parent does after [fork]; the parent's
    reads are therefore served from what the child wrote in all. *)
Definition run_main (e : env) (g1 : globals) : list event * globals :=
  let g := multiply_reference g1 in
  let t0 := [EvPrint (MsgBanner N N P)] in
  let '(t1, ok1) := setup_pipes e (zrange 0 P) in
  if negb ok1 then (t0 ++ t1, g) else
  let '(t2, ok2) := spawn e (zrange 0 P) in
  if negb ok2 then (t0 ++ t1 ++ t2, g) else
  let '(g', t3) :=
    for_loop 0 P (collect_one e (pipes_content e g)) (g, t0 ++ t1 ++ t2) in
  (t3 ++ report g', g').

(** [main]. *)
Definition main (e : env) : list event * globals :=
  run_main e (init_matrices globals0).

End Program.

(** The program as built: [#define N 10] and [#define P 4]. *)
Module Build.
Definition N : Z := 10.
Definition P : Z := 4.
End Build.

(** ** Notions used to state the properties *)

(** The row at which block [i] starts when the rows are dealt out evenly;
    block [i] ends where block [i + 1] starts. *)
Definition row_start (N P i : Z) : Z := i * Z.quot N P + Z.min i (Z.rem N P).

(** Row [r] lies in the half-open range [rg]. *)
Definition in_rows (rg : Z * Z) (r : Z) : Prop := fst rg <= r < snd rg.

Definition range_size (rg : Z * Z) : Z := snd rg - fst rg.

(** [f 0 + f 1 + ... + f (n-1)], in [Z]. *)
Fixpoint sum_n (f : Z -> Z) (n : nat) : Z :=
  match n with
  | O => 0
  | S n' => sum_n f n' + f (Z.of_nat n')
  end.

(** The entry of the matrix product, in [Z]: the sum over [k] from 0 to
    [N - 1] of [MA r k * MB k c]. *)
Definition dot_product (N : Z) (MA MB : Matrix) (r c : Z) : Z :=
  sum_n (fun k => MA r k * MB k c) (Z.to_nat N).

(** Messages that report a failure. *)
Definition is_failure (ev : event) : bool :=
  match ev with
  | EvPrint (MsgPipeFailed _) | EvPrint (MsgForkFailed _)
  | EvPrint (MsgChildWriteFailed _) | EvPrint (MsgParentReadFailed _) => true
  | _ => false
  end.

(** No failure is reported in the trace [t]. *)
Definition quiet (t : list event) : bool :=
  forallb (fun ev => negb (is_failure ev)) t.

(** Invariant of the write loop sending [data]: what is in the pipe is the
    part of [data] counted by [written]. *)
Definition write_inv (bytes : Z) (data : list byte) (st : wstate) : Prop :=
  0 <= w_written st <= Z.max 0 bytes
  /\ w_pipe st = firstn (Z.to_nat (w_written st)) data.

(** Invariant of the read loop on the pipe content [stream0] with the
    buffer [buf0] at the start: [offset] bytes of the stream have been
    moved to the front of the buffer, whose other bytes are untouched. *)
Definition read_inv (bytes : Z) (stream0 : list byte) (buf0 : buffer)
    (st : rstate) : Prop :=
  0 <= r_offset st <= Z.max 0 bytes
  /\ r_offset st <= Z.of_nat (length stream0)
  /\ r_stream st = skipn (Z.to_nat (r_offset st)) stream0
  /\ forall a, r_inbuf st a =
       if (0 <=? a) && (a <? r_offset st)
       then nth (Z.to_nat a) stream0 Byte.x00
       else buf0 a.

(** The number of bytes both ends expect for block [i]. *)
Definition expected_bytes (N P i : Z) : Z :=
  block_bytes (block_count N (fst (get_work_range N P i))
                             (snd (get_work_range N P i))).

(** The state in which the parent leaves the read loop for child [i] in a
    run where the children were forked with the globals [g]. *)
Definition received (N P : Z) (e : env) (g : globals) (i : Z) : rstate :=
  snd (parent_read N P e (pipes_content N P e g i) i).

(** The system calls of one iteration of the collection loop. *)
Definition collect_trace (N P : Z) (e : env) (streams : Z -> list byte)
    (i : Z) : list event :=
  r_trace (snd (parent_read N P e (streams i) i)) ++ [EvClose i ReadEnd].

(** The sizes for which no [int] of the program overflows. *)
Definition sized (N P : Z) : Prop :=
  0 <= N /\ 0 < P /\ Int32.in_range P /\ 4 * N * N <= Int32.max_signed.

(** Every [pipe] and every [fork] succeeds. *)
Definition setup_ok (P : Z) (e : env) : Prop :=
  forall j, 0 <= j < P -> 0 <= pipe_ret e j /\ 0 <= fork_ret e j.

(** The events of a run up to the collection loop when every [pipe] and
    [fork] succeeds. *)
Definition prologue (N P : Z) (e : env) : list event :=
  [EvPrint (MsgBanner N N P)]
  ++ map (fun i => EvPipe i (pipe_ret e i)) (zrange 0 P)
  ++ map (fun i => EvFork i (fork_ret e i)) (zrange 0 P).

(** An environment without faults: every call succeeds and every transfer
    is done in one call. *)
Definition ideal_env : env :=
  mkEnv (fun _ => 0) (fun i => i + 3) (fun _ => []) (fun _ => [])
        (fun _ _ => Byte.x00).

(** The accumulator [sum] of a kernel after [k] iterations of its innermost
    loop, for the cell in row [r] and column [c]. *)
Definition acc_after (MA MB : Matrix) (r c k : Z) : Z :=
  for_loop 0 k (fun k sum => Int32.add sum (Int32.mul (MA r k) (MB k c))) 0.

(** Iteration [k] of the innermost loop for the cell in row [r] and column
    [c]: the product it adds is between 1 and 38 and is not changed by the
    32-bit multiplication; the sum of the products up to it, computed in
    [Z], is between 1 and 164; and the [int] accumulator holds exactly that
    sum after the iteration. *)
Definition accumulation_ok (MA MB : Matrix) (r c k : Z) : bool :=
  let p := MA r k * MB k c in
  let s := sum_n (fun k => MA r k * MB k c) (Z.to_nat (k + 1)) in
  (1 <=? p) && (p <=? 38) && (Int32.mul (MA r k) (MB k c) =? p)
  && (1 <=? s) && (s <=? 164)
  && (acc_after MA MB r c (k + 1) =? s).

(** [for_ret] with, beside the result, what the bodies that were run have
    visited, in order. *)
Fixpoint for_ret_visit {X R : Type} (l : list Z)
    (body : Z -> list X * option R) : list X * option R :=
  match l with
  | [] => ([], None)
  | i :: l' =>
      let '(v, res) := body i in
      match res with
      | Some x => (v, Some x)
      | None =>
          let '(v', res') := for_ret_visit l' body in (v ++ v', res')
      end
  end.

(** [compare_results] with the positions it compares, in order. *)
Definition compare_results_visit (N : Z) (g : globals) : list (Z * Z) * Z :=
  let '(v, res) :=
    for_ret_visit (zrange 0 N) (fun i =>
      for_ret_visit (zrange 0 N) (fun j =>
        ([(i, j)],
         if negb (C g i j =? C_ref g i j) then Some 1 else None))) in
  (v, match res with Some x => x | None => 0 end).

(** The positions of the matrices in row-major order. *)
Definition grid (N : Z) : list (Z * Z) :=
  flat_map (fun i => map (fun j => (i, j)) (zrange 0 N)) (zrange 0 N).

(** [C] and [C_ref] hold the same value at position [p]. *)
Definition agree (g : globals) (p : Z * Z) : Prop :=
  C g (fst p) (snd p) = C_ref g (fst p) (snd p).

(** A scan of the positions [all] that visited [v]: it either took the
    whole of [all] and found every position good, or it stopped on the
    first position that is not. *)
Definition scan_spec {X R : Type} (good : X -> Prop) (all v : list X)
    (res : option R) : Prop :=
  match res with
  | None => v = all /\ Forall good v
  | Some _ =>
      exists pre p rest,
        all = pre ++ p :: rest /\ v = pre ++ [p] /\ ~ good p /\ Forall good pre
  end.

(** An environment with one fault: the second [write] of child 3 fails
    after the first has taken 79 of its 80 bytes; the parent's stack holds
    zeros. *)
Definition short_env : env :=
  mkEnv (fun _ => 0) (fun i => i + 3)
        (fun i => if i =? 3 then [79; -1] else []) (fun _ => [])
        (fun _ _ => Byte.x00).

(** The receive buffer after a read loop that stopped at [offset]: the
    bytes received, then the bytes the buffer held before. *)
Definition partial_buffer (stream : list byte) (old : buffer) (offset : Z)
  : buffer :=
  fun a =>
    if (0 <=? a) && (a <? offset) then nth (Z.to_nat a) stream Byte.x00
    else old a.

(** The bytes the buffer [old] holds from [offset] up to [expected] are the
    bytes of [data] at the same positions: what was there before the
    transfer is what the transfer failed to bring. *)
Definition stale_as_sent (data : list byte) (old : buffer)
    (offset expected : Z) : Prop :=
  forall a, offset <= a < expected -> old a = nth (Z.to_nat a) data Byte.x00.

(** ** Notions used for the other properties of the code *)

(** An environment in which the third [pipe] fails. *)
Definition pipe_fault_env : env :=
  mkEnv (fun i => if i =? 2 then -1 else 0) (fun i => i + 3)
        (fun _ => []) (fun _ => []) (fun _ _ => Byte.x00).

(** An environment in which the second [fork] fails. *)
Definition fork_fault_env : env :=
  mkEnv (fun _ => 0) (fun i => if i =? 1 then -1 else i + 3)
        (fun _ => []) (fun _ => []) (fun _ _ => Byte.x00).

(** The number of [wait] calls in a trace. *)
Definition waits (t : list event) : nat :=
  length (filter (fun ev => match ev with EvWait => true | _ => false end) t).

(** A [read] on pipe [i]. *)
Definition is_read (i : Z) (ev : event) : bool :=
  match ev with
  | EvRead j _ _ => j =? i
  | _ => false
  end.

(** A [close], [read] or [write] on pipe [i]. *)
Definition on_pipe (i : Z) (ev : event) : bool :=
  match ev with
  | EvClose j _ | EvRead j _ _ | EvWrite j _ _ => j =? i
  | _ => false
  end.

(** ** [user/perf.c] *)

Module Perf.

(** The three lines [main] prints. *)
Inductive line : Type :=
| Cycles (d : Z)
| Time (d : Z)
| Instructions (d : Z).

(** A [uint64] is a [Z] kept in the range from 0 to [2 ^ 64 - 1]. *)
Definition is_uint64 (x : Z) : Prop := 0 <= x < 2 ^ 64.

(** Subtraction of [uint64] values. *)
Definition sub64 (a b : Z) : Z := (a - b) mod 2 ^ 64.

(** [d] is what a counter that read [x] and later [y] has advanced by,
    provided it went round at most once in between. *)
Definition elapsed (x y d : Z) : Prop :=
  is_uint64 d /\ (x + d) mod 2 ^ 64 = y
  /\ (x <= y -> d = y - x) /\ (y < x -> d = y - x + 2 ^ 64).

(** [main], given what [rdcycle], [rdtime] and [rdinstret] return before
    ([c1], [t1], [i1]) and after ([c2], [t2], [i2]) the empty loop: the
    lines printed and the exit status. *)
Definition main (c1 t1 i1 c2 t2 i2 : Z) : list line * Z :=
  let _ := for_loop 0 1000000 (fun _ (u : unit) => u) tt in
  ([Cycles (sub64 c2 c1); Time (sub64 t2 t1); Instructions (sub64 i2 i1)], 0).

End Perf.

(** Congruence modulo [2 ^ 32] is compatible with the ring operations. *)
#[local] Instance eqm32_equiv : Equivalence (eqm (2 ^ 32)) :=
  eqm_setoid (2 ^ 32).
#[local] Instance eqm32_add
  : Proper (eqm (2 ^ 32) ==> eqm (2 ^ 32) ==> eqm (2 ^ 32)) Z.add :=
  Zplus_eqm (2 ^ 32).
#[local] Instance eqm32_sub
  : Proper (eqm (2 ^ 32) ==> eqm (2 ^ 32) ==> eqm (2 ^ 32)) Z.sub :=
  Zminus_eqm (2 ^ 32).
#[local] Instance eqm32_mul
  : Proper (eqm (2 ^ 32) ==> eqm (2 ^ 32) ==> eqm (2 ^ 32)) Z.mul :=
  Zmult_eqm (2 ^ 32).

(** Case analysis on every integer comparison of the goal. *)
Ltac zcases :=
  repeat match goal with
         | |- context [?a <=? ?b] => destruct (Z.leb_spec a b)
         | |- context [?a <? ?b] => destruct (Z.ltb_spec a b)
         | |- context [?a =? ?b] => destruct (Z.eqb_spec a b)
         end;
  simpl; try reflexivity; try lia.

(** * Properties *)

(** ** 32-bit arithmetic *)

Module Int32Facts.
Import Int32.

Lemma wrap_eqm x : eqm (2 ^ 32) (wrap x) x.
Proof.
  unfold wrap, eqm.
  rewrite Zminus_mod_idemp_l. f_equal. lia.
Qed.

Lemma eqm_wrap x y : eqm (2 ^ 32) x y -> wrap x = wrap y.
Proof.
  unfold wrap, eqm. intros H.
  rewrite <- (Zplus_mod_idemp_l x), <- (Zplus_mod_idemp_l y), H. reflexivity.
Qed.

Lemma wrap_small x : in_range x -> wrap x = x.
Proof.
  unfold in_range, min_signed, max_signed, wrap. intros H.
  rewrite Z.mod_small; lia.
Qed.

Lemma wrap_in_range x : in_range (wrap x).
Proof.
  unfold in_range, min_signed, max_signed, wrap.
  pose proof (Z.mod_pos_bound (x + 2 ^ 31) (2 ^ 32) ltac:(lia)). lia.
Qed.

Lemma wrap_wrap x : wrap (wrap x) = wrap x.
Proof. apply wrap_small, wrap_in_range. Qed.

Lemma eq_eqm x y : x = y -> eqm (2 ^ 32) x y.
Proof. intros ->. apply eqm_refl. Qed.

Lemma wrap_exact x y : eqm (2 ^ 32) x y -> in_range y -> wrap x = y.
Proof. intros H Hy. rewrite (eqm_wrap _ _ H). now apply wrap_small. Qed.

End Int32Facts.

(** An [int] expression whose exact value is in range equals that value. *)
Ltac int32_exact :=
  unfold Int32.add, Int32.sub, Int32.mul;
  apply Int32Facts.wrap_exact;
  [ rewrite ?Int32Facts.wrap_eqm; apply Int32Facts.eq_eqm; lia | ].

(** ** The partitioner *)

Section Partition.
Variables N P : Z.
Hypothesis HN : Int32.in_range N.
Hypothesis HP : Int32.in_range P.
Hypothesis Ppos : 0 < P.

Local Abbreviation b := (Z.quot N P).
Local Abbreviation e := (Z.rem N P).

Lemma quot_rem_facts :
  N = P * b + e /\ (0 <= N -> 0 <= e < P /\ 0 <= b) /\ (N < 0 -> - P < e <= 0 /\ b <= 0).
Proof using All.
  pose proof (Z.quot_rem' N P) as E.
  split; [exact E|]. split; intros H.
  - pose proof (Z.rem_bound_pos_pos N P Ppos H). split; [lia|].
    apply Z.quot_pos; lia.
  - pose proof (Z.rem_bound_pos_neg N P Ppos ltac:(lia)). split; [lia|].
    nia.
Qed.

Lemma quot_in_range : Int32.in_range b /\ Int32.in_range e.
Proof using All.
  destruct quot_rem_facts as (E & Hp & Hn).
  unfold Int32.in_range, Int32.min_signed, Int32.max_signed in *.
  destruct (Z_le_gt_dec 0 N) as [H|H].
  - destruct (Hp H). split; nia.
  - destruct (Hn ltac:(lia)). split; nia.
Qed.

Lemma row_start_bounds i : 0 <= i <= P ->
  (0 <= N -> 0 <= row_start N P i <= N) /\ (N < 0 -> N <= row_start N P i <= 0).
Proof using All.
  intros Hi. unfold row_start.
  destruct quot_rem_facts as (E & Hp & Hn). split; intros H.
  - destruct (Hp H). nia.
  - destruct (Hn H). nia.
Qed.

Lemma get_work_range_closed i : 0 <= i < P ->
  get_work_range N P i = (row_start N P i, row_start N P (i + 1)).
Proof using All.
  intros Hi. unfold get_work_range.
  destruct quot_in_range as [Hb He].
  unfold Int32.quot, Int32.rem.
  rewrite (Int32Facts.wrap_small b Hb), (Int32Facts.wrap_small e He).
  destruct quot_rem_facts as (E & Hp & Hn).
  pose proof (row_start_bounds i ltac:(lia)) as [B1 B1'].
  pose proof (row_start_bounds (i + 1) ltac:(lia)) as [B2 B2'].
  unfold row_start in *.
  assert (R : forall x, N <= x <= 0 \/ 0 <= x <= N -> Int32.in_range x).
  { unfold Int32.in_range, Int32.min_signed, Int32.max_signed in *. lia. }
  destruct (i <? e) eqn:L; [apply Z.ltb_lt in L | apply Z.ltb_ge in L].
  - assert (0 <= N) by (destruct (Z_le_gt_dec 0 N); [lia | destruct Hn; lia]).
    assert (S1 : Int32.mul i (Int32.add b 1) = i * b + Z.min i e).
    { int32_exact. apply R. lia. }
    rewrite S1. f_equal.
    int32_exact. apply R. lia.
  - assert (S1 : Int32.add (Int32.mul e (Int32.add b 1)) (Int32.mul (Int32.sub i e) b)
                 = i * b + Z.min i e).
    { unfold Int32.add, Int32.sub, Int32.mul.
      apply Int32Facts.wrap_exact.
      - rewrite ?Int32Facts.wrap_eqm. apply Int32Facts.eq_eqm. lia.
      - apply R. destruct (Z_le_gt_dec 0 N); lia. }
    rewrite S1. f_equal.
    unfold Int32.add. apply Int32Facts.wrap_exact.
    + apply Int32Facts.eq_eqm.
      destruct (Z_le_gt_dec 0 N) as [H|H]; [destruct (Hp H) | destruct (Hn ltac:(lia))]; lia.
    + apply R. destruct (Z_le_gt_dec 0 N); lia.
Qed.

Lemma row_start_step i : 0 <= i < P ->
  row_start N P (i + 1) - row_start N P i = b + (if i <? e then 1 else 0).
Proof using All.
  intros Hi. unfold row_start.
  destruct (i <? e) eqn:L; [apply Z.ltb_lt in L | apply Z.ltb_ge in L]; lia.
Qed.

Lemma row_start_mono i j : 0 <= N -> 0 <= i <= j -> j <= P ->
  row_start N P i <= row_start N P j.
Proof using All.
  intros H0 Hij Hj. unfold row_start.
  destruct quot_rem_facts as (E & Hp & _). destruct (Hp H0). nia.
Qed.

Lemma row_start_ends : 0 <= N -> row_start N P 0 = 0 /\ row_start N P P = N.
Proof using All.
  intros H0. unfold row_start.
  destruct quot_rem_facts as (E & Hp & _). destruct (Hp H0). lia.
Qed.

Lemma rows_empty_neg i r : N < 0 -> 0 <= i < P ->
  ~ (row_start N P i <= r < row_start N P (i + 1)).
Proof using All.
  intros H0 Hi. pose proof (row_start_step i Hi) as S.
  destruct quot_rem_facts as (E & _ & Hn). destruct (Hn H0).
  replace (i <? e) with false in S by (symmetry; apply Z.ltb_ge; lia). lia.
Qed.

Lemma row_owner r (k : nat) : 0 <= N -> Z.of_nat k <= P ->
  0 <= r < row_start N P (Z.of_nat k) ->
  exists i, 0 <= i < Z.of_nat k /\ row_start N P i <= r < row_start N P (i + 1).
Proof using All.
  intros H0. induction k as [|k IH]; intros Hk Hr.
  - destruct (row_start_ends H0) as [Z0 _]. simpl in Hr. lia.
  - destruct (Z_lt_ge_dec r (row_start N P (Z.of_nat k))) as [L|L].
    + destruct IH as (i & Hi & Hin); [lia | lia |]. exists i. split; [lia | exact Hin].
    + exists (Z.of_nat k). replace (Z.of_nat k + 1) with (Z.of_nat (S k)) by lia.
      split; lia.
Qed.

End Partition.

(** C2: for every number of rows [N] and every number of workers [P > 0],
    the ranges [get_work_range] gives to the workers 0 to [P - 1] are
    pairwise disjoint and their union is exactly the rows 0 to [N - 1];
    when [N >= 0] each is a half-open interval with [0 <= start <= end
    <= N]. *)
Theorem partition_covers (N P : Z) :
  Int32.in_range N -> Int32.in_range P -> 0 < P ->
  (forall i j r, 0 <= i < j -> j < P ->
     ~ (in_rows (get_work_range N P i) r /\ in_rows (get_work_range N P j) r))
  /\ (forall r, (exists i, 0 <= i < P /\ in_rows (get_work_range N P i) r)
                <-> 0 <= r < N)
  /\ (0 <= N -> forall i, 0 <= i < P ->
        0 <= fst (get_work_range N P i) <= snd (get_work_range N P i)
        /\ snd (get_work_range N P i) <= N).
Proof.
  intros HN HP Ppos. repeat split.
  - intros i j r Hij Hj [Hi' Hj']. unfold in_rows in *.
    rewrite get_work_range_closed in Hi', Hj' by (assumption || lia). simpl in *.
    destruct (Z_le_gt_dec 0 N) as [H0|H0].
    + pose proof (row_start_mono N P HN HP Ppos (i + 1) j H0 ltac:(lia) ltac:(lia)). lia.
    + apply (rows_empty_neg N P HN HP Ppos i r); [lia | lia | assumption].
  - destruct H as (i & Hi & Hin). unfold in_rows in Hin.
    rewrite get_work_range_closed in Hin by assumption. simpl in Hin.
    destruct (Z_le_gt_dec 0 N) as [H0|H0].
    + pose proof (row_start_mono N P HN HP Ppos 0 i H0 ltac:(lia) ltac:(lia)).
      destruct (row_start_ends N P HN HP Ppos H0). lia.
    + exfalso. apply (rows_empty_neg N P HN HP Ppos i r); [lia | lia | assumption].
  - destruct H as (i & Hi & Hin). unfold in_rows in Hin.
    rewrite get_work_range_closed in Hin by assumption. simpl in Hin.
    destruct (Z_le_gt_dec 0 N) as [H0|H0].
    + pose proof (row_start_mono N P HN HP Ppos (i + 1) P H0 ltac:(lia) ltac:(lia)).
      destruct (row_start_ends N P HN HP Ppos H0). lia.
    + exfalso. apply (rows_empty_neg N P HN HP Ppos i r); [lia | lia | assumption].
  - intros Hr.
    destruct (row_owner N P HN HP Ppos r (Z.to_nat P)) as (i & Hi & Hin).
    + lia.
    + lia.
    + rewrite Z2Nat.id by lia. destruct (row_start_ends N P HN HP Ppos); lia.
    + exists i. split; [lia|]. unfold in_rows.
      rewrite get_work_range_closed by (assumption || lia). exact Hin.
  - rewrite get_work_range_closed by assumption. simpl.
    pose proof (row_start_mono N P HN HP Ppos 0 i H ltac:(lia) ltac:(lia)).
    destruct (row_start_ends N P HN HP Ppos H). lia.
  - rewrite get_work_range_closed by assumption. simpl.
    apply (row_start_mono N P HN HP Ppos i (i+1) H); lia.
  - rewrite get_work_range_closed by assumption. simpl.
    pose proof (row_start_mono N P HN HP Ppos (i + 1) P H ltac:(lia) ltac:(lia)).
    destruct (row_start_ends N P HN HP Ppos H). lia.
Qed.

Lemma partition_covers_witness :
  (exists i, 0 <= i < 4 /\ in_rows (get_work_range 10 4 i) 7) <-> 0 <= 7 < 10.
Proof.
  refine (proj1 (proj2 (partition_covers 10 4 _ _ _)) 7);
    unfold Int32.in_range, Int32.min_signed, Int32.max_signed; lia.
Defined.

(** C3: for every [N] and every [P > 0], the sizes of two ranges differ by
    at most one row, and a range with index below [N % P] is at least as
    large as a range with index [N % P] or more: the size of range [i] is
    [N / P], plus one when [i < N % P]. *)
Theorem partition_balanced (N P : Z) :
  Int32.in_range N -> Int32.in_range P -> 0 < P ->
  (forall i j, 0 <= i < P -> 0 <= j < P ->
     Z.abs (range_size (get_work_range N P i) - range_size (get_work_range N P j)) <= 1)
  /\ (forall i j, 0 <= i < Z.rem N P -> Z.rem N P <= j < P ->
        range_size (get_work_range N P j) <= range_size (get_work_range N P i))
  /\ (forall i, 0 <= i < P ->
        range_size (get_work_range N P i) = Z.quot N P + (if i <? Z.rem N P then 1 else 0)).
Proof.
  intros HN HP Ppos.
  assert (S : forall i, 0 <= i < P ->
     range_size (get_work_range N P i) = Z.quot N P + (if i <? Z.rem N P then 1 else 0)).
  { intros i Hi. unfold range_size. rewrite get_work_range_closed by assumption. simpl.
    apply row_start_step; assumption. }
  repeat split.
  - intros i j Hi Hj. rewrite !S by assumption.
    destruct (i <? Z.rem N P), (j <? Z.rem N P); lia.
  - intros i j Hi Hj.
    assert (Z.rem N P < P) by (pose proof (Z.rem_bound_abs N P); lia).
    rewrite !S by lia.
    replace (i <? Z.rem N P) with true by (symmetry; apply Z.ltb_lt; lia).
    destruct (j <? Z.rem N P); lia.
  - exact S.
Qed.

Lemma partition_balanced_witness :
  range_size (get_work_range 10 4 2) <= range_size (get_work_range 10 4 1).
Proof.
  refine (proj1 (proj2 (partition_balanced 10 4 _ _ _)) 1 2 _ _);
    unfold Int32.in_range, Int32.min_signed, Int32.max_signed;
    try change (Z.rem 10 4) with 2; lia.
Defined.


(** ** Counted loops *)

Lemma zrange_empty lo hi : hi <= lo -> zrange lo hi = [].
Proof.
  intros H. unfold zrange. replace (Z.to_nat (hi - lo)) with O by lia. reflexivity.
Qed.

Lemma zrange_snoc lo hi : lo <= hi -> zrange lo (hi + 1) = zrange lo hi ++ [hi].
Proof.
  intros H. unfold zrange.
  replace (Z.to_nat (hi + 1 - lo)) with (Z.to_nat (hi - lo) + 1)%nat by lia.
  rewrite seq_app, map_app. simpl. do 2 f_equal. lia.
Qed.

Lemma zrange_length lo hi : length (zrange lo hi) = Z.to_nat (hi - lo).
Proof. unfold zrange. now rewrite length_map, length_seq. Qed.

Lemma in_zrange lo hi x : In x (zrange lo hi) <-> lo <= x < hi.
Proof.
  unfold zrange. rewrite in_map_iff. split.
  - intros (k & <- & Hk). apply in_seq in Hk. lia.
  - intros H. exists (Z.to_nat (x - lo)). split; [lia|]. apply in_seq. lia.
Qed.

Lemma for_loop_empty {T : Type} lo hi (body : Z -> T -> T) s :
  hi <= lo -> for_loop lo hi body s = s.
Proof. intros H. unfold for_loop. now rewrite zrange_empty. Qed.

Lemma for_loop_snoc {T : Type} lo hi (body : Z -> T -> T) s :
  lo <= hi -> for_loop lo (hi + 1) body s = body hi (for_loop lo hi body s).
Proof.
  intros H. unfold for_loop. rewrite zrange_snoc by assumption.
  now rewrite fold_left_app.
Qed.

(** The invariant rule of a counted loop. *)
Lemma for_loop_inv {T : Type} (Inv : Z -> T -> Prop) lo hi (body : Z -> T -> T) s :
  lo <= hi ->
  Inv lo s ->
  (forall i t, lo <= i < hi -> Inv i t -> Inv (i + 1) (body i t)) ->
  Inv hi (for_loop lo hi body s).
Proof.
  intros Hle H0 Hstep.
  assert (G : forall n : nat, lo + Z.of_nat n <= hi ->
                Inv (lo + Z.of_nat n) (for_loop lo (lo + Z.of_nat n) body s)).
  { induction n as [|n IH]; intros Hn.
    - rewrite Z.add_0_r, for_loop_empty by lia. exact H0.
    - replace (lo + Z.of_nat (S n)) with (lo + Z.of_nat n + 1) by lia.
      rewrite for_loop_snoc by lia. apply Hstep; [lia|]. apply IH. lia. }
  specialize (G (Z.to_nat (hi - lo))).
  replace (lo + Z.of_nat (Z.to_nat (hi - lo))) with hi in G by lia.
  apply G. lia.
Qed.

(** ** The kernels *)

(** The accumulation loop of both kernels. *)
Lemma accumulate_sum (MA MB : Matrix) r c k : 0 <= k ->
  for_loop 0 k (fun k sum => Int32.add sum (Int32.mul (MA r k) (MB k c))) 0
  = Int32.wrap (sum_n (fun k => MA r k * MB k c) (Z.to_nat k)).
Proof.
  intros Hk.
  apply (for_loop_inv (fun k s => s = Int32.wrap (sum_n (fun k => MA r k * MB k c) (Z.to_nat k)))).
  - exact Hk.
  - reflexivity.
  - intros i t Hi ->.
    replace (Z.to_nat (i + 1)) with (S (Z.to_nat i)) by lia. simpl.
    rewrite Z2Nat.id by lia.
    unfold Int32.add, Int32.mul. apply Int32Facts.eqm_wrap.
    rewrite !Int32Facts.wrap_eqm. reflexivity.
Qed.


Lemma for_loop_append {X : Type} (f : Z -> list X) lo hi (body : Z -> list X -> list X) buf :
  (forall i b, body i b = b ++ f i) ->
  for_loop lo hi body buf = buf ++ flat_map f (zrange lo hi).
Proof.
  intros Hb. unfold for_loop. generalize (zrange lo hi) as l. intros l. revert buf.
  induction l as [|x l IH]; intros buf; simpl.
  - now rewrite app_nil_r.
  - rewrite IH, Hb, <- app_assoc. reflexivity.
Qed.

Lemma flat_map_singleton {X Y : Type} (f : X -> Y) (l : list X) :
  flat_map (fun x => [f x]) l = map f l.
Proof. induction l as [|x l IH]; simpl; congruence. Qed.

Lemma nth_flat_map_chunks {X Y : Type} (f : X -> list Y) (n : nat) (l : list X)
    (i j : nat) (d : Y) (dx : X) :
  (forall x, length (f x) = n) -> (i < length l)%nat -> (j < n)%nat ->
  nth (i * n + j) (flat_map f l) d = nth j (f (nth i l dx)) d.
Proof.
  intros Hlen. revert i. induction l as [|x l IH]; intros i Hi Hj; simpl in *.
  - lia.
  - destruct i as [|i]; simpl.
    + rewrite app_nth1 by (rewrite Hlen; lia). reflexivity.
    + rewrite app_nth2 by (rewrite Hlen; lia). rewrite Hlen.
      replace (n + i * n + j - n)%nat with (i * n + j)%nat by lia.
      apply IH; lia.
Qed.

Lemma length_flat_map_chunks {X Y : Type} (f : X -> list Y) (n : nat) (l : list X) :
  (forall x, length (f x) = n) -> length (flat_map f l) = (length l * n)%nat.
Proof.
  intros Hlen. induction l as [|x l IH]; simpl; [reflexivity|].
  rewrite length_app, Hlen, IH. reflexivity.
Qed.

Lemma nth_zrange lo hi (k : nat) d : (k < Z.to_nat (hi - lo))%nat ->
  nth k (zrange lo hi) d = lo + Z.of_nat k.
Proof.
  intros Hk. unfold zrange.
  rewrite (nth_indep _ d (lo + Z.of_nat 0)) by (rewrite length_map, length_seq; exact Hk).
  rewrite (map_nth (fun k => lo + Z.of_nat k)), seq_nth by exact Hk. reflexivity.
Qed.

Lemma nth_map_zrange {Y : Type} (f : Z -> Y) lo hi (k : nat) d :
  (k < Z.to_nat (hi - lo))%nat ->
  nth k (map f (zrange lo hi)) d = f (lo + Z.of_nat k).
Proof.
  intros Hk.
  rewrite (nth_indep _ d (f 0)) by (rewrite length_map, zrange_length; exact Hk).
  rewrite (map_nth f), nth_zrange by exact Hk. reflexivity.
Qed.

Section Kernel.
Variable N : Z.

Lemma multiply_reference_spec (g : globals) :
  let g' := multiply_reference N g in
  A g' = A g /\ B g' = B g /\ C g' = C g
  /\ forall i j, C_ref g' i j =
       if (0 <=? i) && (i <? N) && ((0 <=? j) && (j <? N))
       then Int32.wrap (dot_product N (A g) (B g) i j)
       else C_ref g i j.
Proof.
  destruct (Z_le_gt_dec 0 N) as [HN|HN].
  2:{ unfold multiply_reference. rewrite for_loop_empty by lia.
      repeat split. intros i j. zcases. }
  unfold multiply_reference.
  apply (for_loop_inv (fun i t =>
    A t = A g /\ B t = B g /\ C t = C g
    /\ forall i' j', C_ref t i' j' =
         if (0 <=? i') && (i' <? i) && ((0 <=? j') && (j' <? N))
         then Int32.wrap (dot_product N (A g) (B g) i' j')
         else C_ref g i' j')).
  - exact HN.
  - repeat split. intros i' j'. zcases.
  - intros i t Hi (HA & HB & HC & HR).
    pose (InvJ := fun (j : Z) (u : globals) =>
      A u = A g /\ B u = B g /\ C u = C g
      /\ forall i' j', C_ref u i' j' =
           if (i' =? i) && ((0 <=? j') && (j' <? j))
           then Int32.wrap (dot_product N (A g) (B g) i' j')
           else C_ref t i' j').
    assert (Hin : InvJ N
      (for_loop 0 N (fun j g0 =>
         let sum := for_loop 0 N (fun k sum =>
           Int32.add sum (Int32.mul (A g0 i k) (B g0 k j))) 0 in
         set_C_ref g0 (mset (C_ref g0) i j sum)) t)).
    { apply (for_loop_inv InvJ); unfold InvJ.
      - exact HN.
      - repeat split; try assumption. intros i' j'. zcases.
      - intros j u Hj (HA' & HB' & HC' & HR'). simpl.
        repeat split; try assumption.
        intros i' j'. unfold mset. rewrite HR', HA', HB'.
        rewrite accumulate_sum by lia. unfold dot_product.
        zcases; subst; reflexivity. }
    destruct Hin as (HA' & HB' & HC' & HR').
    repeat split; try assumption.
    intros i' j'. rewrite HR', HR. zcases.
Qed.

Lemma child_compute_eq (g : globals) (start end_ : Z) :
  child_compute N g start end_ =
  flat_map (fun r =>
    map (fun c => Int32.wrap (dot_product N (A g) (B g) r c)) (zrange 0 N))
    (zrange start end_).
Proof.
  unfold child_compute.
  rewrite for_loop_append with
    (f := fun r => map (fun c => Int32.wrap (dot_product N (A g) (B g) r c)) (zrange 0 N)).
  - reflexivity.
  - intros r b.
    rewrite for_loop_append with
      (f := fun c => [Int32.wrap (dot_product N (A g) (B g) r c)]).
    + now rewrite flat_map_singleton.
    + intros c b'. destruct (Z_le_gt_dec 0 N).
      * rewrite accumulate_sum by lia. reflexivity.
      * rewrite for_loop_empty by lia. unfold dot_product.
        replace (Z.to_nat N) with O by lia. reflexivity.
Qed.

Lemma child_compute_length (g : globals) (start end_ : Z) :
  length (child_compute N g start end_) = (Z.to_nat (end_ - start) * Z.to_nat N)%nat.
Proof.
  rewrite child_compute_eq.
  rewrite (length_flat_map_chunks _ (Z.to_nat N)).
  - now rewrite zrange_length.
  - intros x. rewrite length_map, zrange_length. f_equal. lia.
Qed.

Lemma child_compute_nth (g : globals) (start end_ r c : Z) :
  start <= r < end_ -> 0 <= c < N ->
  nth (Z.to_nat ((r - start) * N + c)) (child_compute N g start end_) 0
  = Int32.wrap (dot_product N (A g) (B g) r c).
Proof.
  intros Hr Hc. rewrite child_compute_eq.
  replace (Z.to_nat ((r - start) * N + c))
    with (Z.to_nat (r - start) * Z.to_nat N + Z.to_nat c)%nat by nia.
  rewrite (nth_flat_map_chunks _ (Z.to_nat N) _ _ _ _ 0).
  - rewrite nth_zrange by lia.
    rewrite nth_map_zrange by lia.
    do 2 f_equal; lia.
  - intros x. rewrite length_map, zrange_length. f_equal. lia.
  - rewrite zrange_length. lia.
  - lia.
Qed.

End Kernel.

(** C4: for every row [r] of worker [i]'s range and every column [c], the
    serial reference and the worker's kernel both produce the sum over [k]
    of [A[r][k] * B[k][c]] in [int] arithmetic, that is, reduced to 32 bits;
    whenever the sum is representable as an [int] they produce exactly the
    sum. *)
Theorem kernel_computes_product (N P : Z) (g : globals) (i r c : Z) :
  0 <= r < N -> 0 <= c < N -> in_rows (get_work_range N P i) r ->
  let s := dot_product N (A g) (B g) r c in
  let reference_cell := C_ref (multiply_reference N g) r c in
  let worker_cell :=
    nth (Z.to_nat ((r - fst (get_work_range N P i)) * N + c))
        (child_compute N g (fst (get_work_range N P i))
                           (snd (get_work_range N P i))) 0 in
  reference_cell = Int32.wrap s /\ worker_cell = Int32.wrap s
  /\ (Int32.in_range s -> reference_cell = s /\ worker_cell = s).
Proof.
  intros Hr Hc Hin s reference_cell worker_cell.
  assert (R : reference_cell = Int32.wrap s).
  { subst reference_cell.
    destruct (multiply_reference_spec N g) as (_ & _ & _ & H). rewrite H.
    zcases. }
  assert (W : worker_cell = Int32.wrap s).
  { subst worker_cell. apply child_compute_nth; assumption. }
  split; [exact R | split; [exact W |]].
  intros Hs. rewrite <- (Int32Facts.wrap_small s Hs). split; assumption.
Qed.

Lemma kernel_computes_product_witness :
  C_ref (multiply_reference Build.N (init_matrices Build.N globals0)) 4 7
  = Int32.wrap (dot_product Build.N (A (init_matrices Build.N globals0))
                                    (B (init_matrices Build.N globals0)) 4 7).
Proof.
  refine (proj1 (kernel_computes_product Build.N Build.P
                   (init_matrices Build.N globals0) 1 4 7 _ _ _)).
  - unfold Build.N. lia.
  - unfold Build.N. lia.
  - unfold in_rows. change (get_work_range Build.N Build.P 1) with (3, 6).
    simpl. lia.
Defined.

(** ** The transfer loops *)

Lemma quiet_app t1 t2 : quiet (t1 ++ t2) = quiet t1 && quiet t2.
Proof. apply forallb_app. Qed.

Lemma firstn_plus {X : Type} (a b : nat) (l : list X) :
  firstn (a + b) l = firstn a l ++ firstn b (skipn a l).
Proof.
  revert l. induction a as [|a IH]; intros l; simpl; [reflexivity|].
  destruct l as [|x l]; simpl.
  - now rewrite firstn_nil.
  - now rewrite IH.
Qed.

Section WriteLoop.
Variables (i bytes : Z) (data : list byte).
Hypothesis Hbytes : Int32.in_range bytes.

Lemma write_loop_spec (fuel : nat) (st : wstate) :
  write_inv bytes data st -> bytes - w_written st <= Z.of_nat fuel ->
  let '(ex, st') := write_loop fuel i data bytes st in
  write_inv bytes data st'
  /\ ((ex = LoopDone /\ bytes <= w_written st' /\ quiet (w_trace st') = quiet (w_trace st))
      \/ (ex = LoopBroke /\ w_written st' < bytes
          /\ exists t, w_trace st' = t ++ [EvPrint (MsgChildWriteFailed i)])).
Proof.
  revert st. induction fuel as [|fuel IH]; intros st (Hw & Hp) Hf.
  - simpl. destruct (Z.ltb_spec (w_written st) bytes); [lia|].
    split; [split; assumption|]. left. repeat split; lia.
  - simpl. destruct (Z.ltb_spec (w_written st) bytes) as [Hlt|Hge].
    2:{ split; [split; assumption|]. left. repeat split; lia. }
    assert (Hn : Int32.sub bytes (w_written st) = bytes - w_written st).
    { int32_exact. unfold Int32.in_range, Int32.min_signed, Int32.max_signed in *. lia. }
    rewrite Hn. unfold sys_write.
    set (w := match w_sched st with
              | [] => bytes - w_written st
              | k :: _ => Z.min k (bytes - w_written st)
              end).
    assert (Hwle : w <= bytes - w_written st) by (subst w; destruct (w_sched st); lia).
    destruct (Z.leb_spec w 0) as [Hfail|Hok].
    + split.
      * split; simpl; [lia|]. replace (Z.to_nat w) with O by lia.
        simpl. rewrite app_nil_r. exact Hp.
      * right. repeat split; simpl; [lia|]. eexists. reflexivity.
    + assert (Ha : Int32.add (w_written st) w = w_written st + w).
      { int32_exact. unfold Int32.in_range, Int32.min_signed, Int32.max_signed in *. lia. }
      rewrite Ha.
      specialize (IH (mkW (w_written st + w)
                          (w_pipe st ++ firstn (Z.to_nat w) (skipn (Z.to_nat (w_written st)) data))
                          (tl (w_sched st)) (w_trace st ++ [EvWrite i (bytes - w_written st) w]))).
      destruct (write_loop fuel i data bytes _) as [ex st'].
      destruct IH as (Hinv & Hres).
      * split; simpl; [lia|]. rewrite Hp.
        replace (Z.to_nat (w_written st + w))
          with (Z.to_nat (w_written st) + Z.to_nat w)%nat by lia.
        now rewrite firstn_plus.
      * simpl. lia.
      * split; [exact Hinv|]. destruct Hres as [(E & Hd & Hq)|Hb]; [left|right; exact Hb].
        repeat split; try assumption. rewrite Hq. simpl.
        rewrite quiet_app. simpl. now rewrite andb_true_r.
Qed.

End WriteLoop.

Section ReadLoop.
Variables (i bytes : Z) (stream0 : list byte) (buf0 : buffer).
Hypothesis Hbytes : Int32.in_range bytes.

Lemma read_loop_spec (fuel : nat) (st : rstate) :
  read_inv bytes stream0 buf0 st -> bytes - r_offset st <= Z.of_nat fuel ->
  let '(ex, st') := read_loop fuel i bytes st in
  read_inv bytes stream0 buf0 st'
  /\ ((ex = LoopDone /\ bytes <= r_offset st' /\ quiet (r_trace st') = quiet (r_trace st))
      \/ (ex = LoopBroke /\ r_offset st' < bytes
          /\ exists t, r_trace st' = t ++ [EvPrint (MsgParentReadFailed i)])).
Proof.
  revert st. induction fuel as [|fuel IH]; intros st (Ho & Hl & Hs & Hb) Hf.
  - simpl. destruct (Z.ltb_spec (r_offset st) bytes); [lia|].
    split; [repeat split; assumption || lia|]. left. repeat split; lia.
  - simpl. destruct (Z.ltb_spec (r_offset st) bytes) as [Hlt|Hge].
    2:{ split; [repeat split; assumption || lia|]. left. repeat split; lia. }
    assert (Hn : Int32.sub bytes (r_offset st) = bytes - r_offset st).
    { int32_exact. unfold Int32.in_range, Int32.min_signed, Int32.max_signed in *. lia. }
    rewrite Hn. unfold sys_read.
    set (n := bytes - r_offset st).
    set (avail := Z.min n (Z.of_nat (length (r_stream st)))).
    set (r := match r_sched st with
              | [] => avail
              | k :: _ => if k <=? 0 then k else Z.min k avail
              end).
    assert (Hlen : Z.of_nat (length (r_stream st)) = Z.of_nat (length stream0) - r_offset st).
    { rewrite Hs, length_skipn. lia. }
    assert (Hr : r <= 0 \/ r <= avail).
    { subst r. destruct (r_sched st) as [|k ?]; [lia|].
      destruct (Z.leb_spec k 0); lia. }
    destruct (Z.leb_spec r 0) as [Hfail|Hok].
    + split.
      * repeat split; simpl; try lia.
        -- replace (Z.to_nat r) with O by lia. exact Hs.
        -- intros a. unfold store. replace (Z.to_nat r) with O by lia. simpl.
           rewrite Hb. zcases.
      * right. repeat split; simpl; [lia|]. eexists. reflexivity.
    + assert (Hra : r <= avail) by lia.
      assert (Ha : Int32.add (r_offset st) r = r_offset st + r).
      { int32_exact. unfold Int32.in_range, Int32.min_signed, Int32.max_signed in *. lia. }
      rewrite Ha.
      assert (Hdl : length (firstn (Z.to_nat r) (r_stream st)) = Z.to_nat r).
      { rewrite length_firstn. lia. }
      specialize (IH (mkR (r_offset st + r)
                          (store (r_inbuf st) (r_offset st) (firstn (Z.to_nat r) (r_stream st)))
                          (skipn (Z.to_nat r) (r_stream st))
                          (tl (r_sched st)) (r_trace st ++ [EvRead i n r]))).
      destruct (read_loop fuel i bytes _) as [ex st'].
      destruct IH as (Hinv & Hres).
      * repeat split; simpl; try lia.
        -- rewrite Hs, skipn_skipn. f_equal. lia.
        -- intros a. unfold store. rewrite Hdl, Hb.
           destruct (Z.leb_spec (r_offset st) a);
             destruct (Z.ltb_spec a (r_offset st + Z.of_nat (Z.to_nat r)));
             simpl.
           ++ rewrite nth_firstn.
              replace (Z.to_nat (a - r_offset st) <? Z.to_nat r)%nat with true
                by (symmetry; apply Nat.ltb_lt; lia).
              rewrite Hs, nth_skipn.
              replace (Z.to_nat (r_offset st) + Z.to_nat (a - r_offset st))%nat
                with (Z.to_nat a) by lia.
              zcases.
           ++ zcases.
           ++ zcases.
           ++ zcases.
      * simpl. lia.
      * split; [exact Hinv|]. destruct Hres as [(E & Hd & Hq)|Hbk]; [left|right; exact Hbk].
        repeat split; try assumption. rewrite Hq. simpl.
        rewrite quiet_app. simpl. now rewrite andb_true_r.
Qed.

End ReadLoop.

(** X17: both transfer loops of [main] end, whatever [N], [P] and the kernel
    do: the child's write loop and the parent's read loop are left by their
    test or by [break] within as many iterations as there are bytes
    expected, every iteration that goes on moving at least one byte. *)
Lemma transfer_loops_terminate (N P : Z) (e : env) (g : globals)
    (stream : list byte) (i : Z) :
  fst (child_send N P e g i) <> OutOfFuel
  /\ fst (parent_read N P e stream i) <> OutOfFuel.
Proof.
  split.
  - unfold child_send. destruct (get_work_range N P i) as [start end_].
    set (bytes := block_bytes (block_count N start end_)).
    set (data := bytes_of_ints (child_compute N g start end_)).
    pose proof (write_loop_spec i bytes data (Int32Facts.wrap_in_range _)
                  (Z.to_nat bytes)
                  (mkW 0 [] (write_sched e i) [EvClose i ReadEnd])) as H.
    destruct (write_loop _ i data bytes _) as [ex st]. cbn [fst].
    destruct H as (_ & [(-> & _)|(-> & _)]); try discriminate.
    + split; simpl; [lia | reflexivity].
    + simpl. lia.
  - unfold parent_read. destruct (get_work_range N P i) as [start end_].
    set (bytes := block_bytes (block_count N start end_)).
    pose proof (read_loop_spec i bytes stream (stack e i)
                  (Int32Facts.wrap_in_range _) (Z.to_nat bytes)
                  (mkR 0 (stack e i) stream (read_sched e i)
                       [EvClose i WriteEnd])) as H.
    destruct (read_loop _ i bytes _) as [ex st]. cbn [fst].
    destruct H as (_ & [(-> & _)|(-> & _)]); try discriminate.
    + repeat split; simpl; try lia. intros a. zcases.
    + simpl. lia.
Qed.

(** ** Bytes and [int]s *)

Lemma bytes_of_ints_length (l : list Z) :
  length (bytes_of_ints l) = (length l * 4)%nat.
Proof.
  unfold bytes_of_ints. apply length_flat_map_chunks. intros x. apply length_le_split.
Qed.

(** An [int] read back from the bytes of an [int] array. *)
Lemma load_int_bytes_of_ints (buf : buffer) (l : list Z) (idx : Z) :
  0 <= idx < Z.of_nat (length l) ->
  (forall a, 4 * idx <= a < 4 * idx + 4 ->
     buf a = nth (Z.to_nat a) (bytes_of_ints l) Byte.x00) ->
  load_int buf idx = Int32.wrap (nth (Z.to_nat idx) l 0).
Proof.
  intros Hidx Hbuf. unfold load_int.
  assert (E : forall j : nat, (j < 4)%nat ->
            buf (4 * idx + Z.of_nat j)
            = nth j (le_split 4 (nth (Z.to_nat idx) l 0)) Byte.x00).
  { intros j Hj. rewrite Hbuf by lia.
    replace (Z.to_nat (4 * idx + Z.of_nat j)) with (Z.to_nat idx * 4 + j)%nat by lia.
    unfold bytes_of_ints.
    apply (nth_flat_map_chunks (le_split 4) 4); [apply length_le_split | lia | lia]. }
  pose proof (E 0%nat ltac:(lia)) as E0. pose proof (E 1%nat ltac:(lia)) as E1.
  pose proof (E 2%nat ltac:(lia)) as E2. pose proof (E 3%nat ltac:(lia)) as E3.
  rewrite Z.add_0_r in E0. change (Z.of_nat 1) with 1 in E1.
  change (Z.of_nat 2) with 2 in E2. change (Z.of_nat 3) with 3 in E3.
  rewrite E0, E1, E2, E3.
  change [nth 0 (le_split 4 (nth (Z.to_nat idx) l 0)) Byte.x00;
          nth 1 (le_split 4 (nth (Z.to_nat idx) l 0)) Byte.x00;
          nth 2 (le_split 4 (nth (Z.to_nat idx) l 0)) Byte.x00;
          nth 3 (le_split 4 (nth (Z.to_nat idx) l 0)) Byte.x00]
    with (le_split 4 (nth (Z.to_nat idx) l 0)).
  rewrite le_combine_split. apply Int32Facts.eqm_wrap.
  change (2 ^ (Z.of_nat 4 * 8)) with (2 ^ 32). apply Zmod_eqm.
Qed.

(** ** The copy into [C] *)

Section CopyBlock.
Variables (N : Z) (inbuf : buffer) (start end_ : Z).

Lemma copy_block_spec (g : globals) :
  let g' := copy_block N inbuf start end_ g in
  A g' = A g /\ B g' = B g /\ C_ref g' = C_ref g
  /\ forall r c, C g' r c =
       if (start <=? r) && (r <? end_) && ((0 <=? c) && (c <? N))
       then load_int inbuf (Int32.wrap ((r - start) * N + c))
       else C g r c.
Proof.
  unfold copy_block.
  destruct (Z_le_gt_dec end_ start) as [He|He].
  { rewrite for_loop_empty by lia. simpl. repeat split. intros r c. zcases. }
  destruct (Z_le_gt_dec 0 N) as [HN|HN].
  2:{ match goal with |- context [for_loop start end_ ?body ?s] =>
        assert (E : for_loop start end_ body s = s) end.
      { apply (for_loop_inv (fun _ s => s = (g, 0))); [lia | reflexivity |].
        intros r t _ ->. apply for_loop_empty. lia. }
      rewrite E. simpl. repeat split. intros r c. zcases. }
  pose (Inv := fun (r : Z) (s : globals * Z) =>
    snd s = Int32.wrap ((r - start) * N)
    /\ A (fst s) = A g /\ B (fst s) = B g /\ C_ref (fst s) = C_ref g
    /\ forall r' c', C (fst s) r' c' =
         if (start <=? r') && (r' <? r) && ((0 <=? c') && (c' <? N))
         then load_int inbuf (Int32.wrap ((r' - start) * N + c'))
         else C g r' c').
  match goal with |- context [for_loop start end_ ?body ?s] =>
    assert (H : Inv end_ (for_loop start end_ body s)) end.
  { apply (for_loop_inv Inv); unfold Inv.
    - lia.
    - simpl. rewrite Z.sub_diag. repeat split. intros r' c'. zcases.
    - intros r s Hr (Hidx & HA & HB & HR & HC).
      pose (InvC := fun (c : Z) (u : globals * Z) =>
        snd u = Int32.wrap ((r - start) * N + c)
        /\ A (fst u) = A g /\ B (fst u) = B g /\ C_ref (fst u) = C_ref g
        /\ forall r' c', C (fst u) r' c' =
             if (r' =? r) && ((0 <=? c') && (c' <? c))
             then load_int inbuf (Int32.wrap ((r' - start) * N + c'))
             else C (fst s) r' c').
      match goal with |- context [for_loop 0 N ?body s] =>
        assert (H : InvC N (for_loop 0 N body s)) end.
      { apply (for_loop_inv InvC); unfold InvC.
        - exact HN.
        - rewrite Z.add_0_r. repeat split; try assumption. intros r' c'. zcases.
        - intros c [u idx] Hc (Hidx' & HA' & HB' & HR' & HC'). simpl in *.
          repeat split; try assumption.
          + subst idx. unfold Int32.add. apply Int32Facts.eqm_wrap.
            rewrite Int32Facts.wrap_eqm. apply Int32Facts.eq_eqm. lia.
          + intros r' c'. unfold mset. rewrite HC'. subst idx.
            zcases; subst; reflexivity. }
      destruct H as (Hidx' & HA' & HB' & HR' & HC').
      repeat split; try assumption.
      + rewrite Hidx'. f_equal. lia.
      + intros r' c'. rewrite HC', HC. zcases. }
  destruct H as (_ & HA & HB & HR & HC). repeat split; assumption.
Qed.

End CopyBlock.

(** ** Sizes without overflow *)

Section Sized.
Variables N P : Z.
Hypothesis Hsz : sized N P.

Lemma sized_in_range : Int32.in_range N /\ Int32.in_range P /\ 0 < P.
Proof using Hsz.
  destruct Hsz as (H0 & HP & HPr & H4). repeat split; try assumption;
    unfold Int32.in_range, Int32.min_signed, Int32.max_signed in *; nia.
Qed.

Lemma range_closed i : 0 <= i < P ->
  get_work_range N P i = (row_start N P i, row_start N P (i + 1)).
Proof using Hsz.
  destruct sized_in_range as (H1 & H2 & H3). now apply get_work_range_closed.
Qed.

Lemma range_bounds i : 0 <= i < P ->
  0 <= row_start N P i /\ row_start N P i <= row_start N P (i + 1)
  /\ row_start N P (i + 1) <= N.
Proof using Hsz.
  intros Hi. destruct sized_in_range as (H1 & H2 & H3).
  destruct Hsz as (H0 & _).
  pose proof (row_start_mono N P H1 H2 H3 0 i H0 ltac:(lia) ltac:(lia)).
  pose proof (row_start_mono N P H1 H2 H3 i (i + 1) H0 ltac:(lia) ltac:(lia)).
  pose proof (row_start_mono N P H1 H2 H3 (i + 1) P H0 ltac:(lia) ltac:(lia)).
  destruct (row_start_ends N P H1 H2 H3 H0). lia.
Qed.

Lemma ranges_apart i j r : 0 <= i < j -> j < P ->
  in_rows (get_work_range N P i) r -> in_rows (get_work_range N P j) r -> False.
Proof using Hsz.
  intros Hij Hj. unfold in_rows. rewrite !range_closed by lia. simpl.
  destruct sized_in_range as (H1 & H2 & H3). destruct Hsz as (H0 & _).
  pose proof (row_start_mono N P H1 H2 H3 (i + 1) j H0 ltac:(lia) ltac:(lia)). lia.
Qed.

Lemma block_sizes i : 0 <= i < P ->
  let start := row_start N P i in
  let end_ := row_start N P (i + 1) in
  block_count N start end_ = (end_ - start) * N
  /\ expected_bytes N P i = 4 * ((end_ - start) * N)
  /\ Int32.in_range (expected_bytes N P i)
  /\ 0 <= (end_ - start) * N.
Proof using Hsz.
  intros Hi start end_. pose proof (range_bounds i Hi) as (B0 & B1 & B2).
  fold start end_ in B0, B1, B2.
  destruct Hsz as (H0 & HP & HPr & H4).
  assert (R : forall x, 0 <= x <= 4 * N * N -> Int32.in_range x).
  { unfold Int32.in_range, Int32.min_signed, Int32.max_signed in *. lia. }
  assert (M : 0 <= (end_ - start) * N <= N * N) by nia.
  assert (E1 : block_count N start end_ = (end_ - start) * N).
  { unfold block_count. int32_exact. apply R. lia. }
  assert (E2 : expected_bytes N P i = 4 * ((end_ - start) * N)).
  { unfold expected_bytes. rewrite range_closed by assumption. cbn [fst snd].
    fold start end_. rewrite E1. unfold block_bytes.
    apply Int32Facts.wrap_small, R. lia. }
  split; [exact E1 | split; [exact E2 | split]].
  - rewrite E2. apply R. lia.
  - lia.
Qed.

End Sized.

(** ** One block, from the child to the parent *)

Lemma quiet_snoc_failure t ev : is_failure ev = true -> quiet (t ++ [ev]) = false.
Proof.
  intros H. rewrite quiet_app. simpl. rewrite H. simpl. apply andb_false_r.
Qed.

Section Transfer.
Variables N P : Z.
Hypothesis Hsz : sized N P.
Variable e : env.

(** What child [i] sends when none of its writes fails. *)
Lemma child_send_spec (g : globals) (i : Z) : 0 <= i < P ->
  let data := bytes_of_ints
                (child_compute N g (row_start N P i) (row_start N P (i + 1))) in
  let '(ex, st) := child_send N P e g i in
  write_inv (expected_bytes N P i) data st
  /\ ((ex = LoopDone /\ w_pipe st = data /\ quiet (w_trace st) = true)
      \/ (ex = LoopBroke /\ w_written st < expected_bytes N P i
          /\ quiet (w_trace st) = false)).
Proof using Hsz.
  intros Hi data.
  pose proof (block_sizes N P Hsz i Hi) as (E1 & E2 & E3 & E4). cbv zeta in *.
  unfold child_send. rewrite (range_closed N P Hsz i Hi).
  assert (Eb : block_bytes (block_count N (row_start N P i) (row_start N P (i + 1)))
               = expected_bytes N P i).
  { unfold expected_bytes. now rewrite (range_closed N P Hsz i Hi). }
  rewrite Eb. fold data.
  pose proof (write_loop_spec i (expected_bytes N P i) data E3
                (Z.to_nat (expected_bytes N P i))
                (mkW 0 [] (write_sched e i) [EvClose i ReadEnd])) as H.
  destruct (write_loop _ i data _ _) as [ex st].
  destruct H as (Hinv & Hres).
  - split; simpl; [lia | reflexivity].
  - simpl. lia.
  - split; [exact Hinv|]. destruct Hres as [(E & Hd & Hq)|(E & Hlt & t & Ht)].
    + left. repeat split; try assumption.
      destruct Hinv as (Hw & Hp). rewrite Hp. apply firstn_all2.
      subst data. rewrite bytes_of_ints_length, child_compute_length. lia.
    + right. repeat split; try assumption. rewrite Ht. now apply quiet_snoc_failure.
Qed.

(** How the parent leaves its read loop for child [i]. *)
Lemma parent_read_spec (stream : list byte) (i : Z) : 0 <= i < P ->
  let '(ex, st) := parent_read N P e stream i in
  read_inv (expected_bytes N P i) stream (stack e i) st
  /\ ((ex = LoopDone /\ r_offset st = expected_bytes N P i
       /\ quiet (r_trace st) = true)
      \/ (ex = LoopBroke /\ r_offset st < expected_bytes N P i
          /\ exists t, r_trace st = t ++ [EvPrint (MsgParentReadFailed i)])).
Proof using Hsz.
  intros Hi.
  pose proof (block_sizes N P Hsz i Hi) as (E1 & E2 & E3 & E4). cbv zeta in *.
  unfold parent_read. rewrite (range_closed N P Hsz i Hi).
  assert (Eb : block_bytes (block_count N (row_start N P i) (row_start N P (i + 1)))
               = expected_bytes N P i).
  { unfold expected_bytes. now rewrite (range_closed N P Hsz i Hi). }
  rewrite Eb.
  pose proof (read_loop_spec i (expected_bytes N P i) stream (stack e i) E3
                (Z.to_nat (expected_bytes N P i))
                (mkR 0 (stack e i) stream (read_sched e i) [EvClose i WriteEnd])) as H.
  destruct (read_loop _ i _ _) as [ex st].
  destruct H as (Hinv & Hres).
  - repeat split; simpl; try lia. intros a. zcases.
  - simpl. lia.
  - split; [exact Hinv|]. destruct Hres as [(E & Hd & Hq)|Hb]; [left|right; exact Hb].
    repeat split; try assumption. destruct Hinv as (Ho & _). lia.
Qed.

(** A block that was sent and received in full holds the product's rows. *)
Lemma block_received (g : globals) (i r c : Z) : 0 <= i < P ->
  quiet (fst (child N P e g i)) = true ->
  quiet (collect_trace N P e (pipes_content N P e g) i) = true ->
  in_rows (get_work_range N P i) r -> 0 <= c < N ->
  load_int (r_inbuf (received N P e g i))
           (Int32.wrap ((r - fst (get_work_range N P i)) * N + c))
  = Int32.wrap (dot_product N (A g) (B g) r c).
Proof using Hsz.
  intros Hi Hq1 Hq2 Hr Hc.
  pose proof (block_sizes N P Hsz i Hi) as (E1 & E2 & E3 & E4). cbv zeta in *.
  pose proof (range_bounds N P Hsz i Hi) as (B0 & B1 & B2).
  unfold in_rows in Hr. rewrite (range_closed N P Hsz i Hi) in Hr |- *.
  cbn [fst snd] in Hr |- *.
  set (start := row_start N P i) in *. set (end_ := row_start N P (i + 1)) in *.
  set (data := bytes_of_ints (child_compute N g start end_)).
  assert (Hpipe : pipes_content N P e g i = data).
  { unfold pipes_content, child in *. cbn [fst snd] in *.
    pose proof (child_send_spec g i Hi) as H. cbv zeta in H. fold start end_ data in H.
    destruct (child_send N P e g i) as [ex st]. cbn [snd] in *.
    destruct H as (_ & [(_ & Hp & _)|(_ & _ & Hf)]); [exact Hp|].
    rewrite quiet_app, Hf in Hq1. discriminate. }
  unfold received, collect_trace in *. rewrite Hpipe in *.
  pose proof (parent_read_spec data i Hi) as H.
  destruct (parent_read N P e data i) as [ex st]. cbn [snd] in *.
  destruct H as (Hinv & [(_ & Ho & _)|(_ & _ & t & Ht)]).
  2:{ rewrite Ht, <- app_assoc, quiet_app in Hq2.
      simpl in Hq2. rewrite andb_false_r in Hq2. discriminate. }
  destruct Hinv as (_ & _ & _ & Hbuf).
  assert (Hidx : 0 <= (r - start) * N + c < (end_ - start) * N) by nia.
  rewrite Int32Facts.wrap_small
    by (unfold Int32.in_range, Int32.min_signed, Int32.max_signed in *; lia).
  rewrite (load_int_bytes_of_ints _ (child_compute N g start end_)).
  - rewrite child_compute_nth by lia. apply Int32Facts.wrap_wrap.
  - rewrite child_compute_length. lia.
  - intros a Ha. rewrite Hbuf, Ho, E2.
    replace ((0 <=? a) && (a <? 4 * ((end_ - start) * N))) with true
      by (symmetry; apply andb_true_iff; split; [apply Z.leb_le | apply Z.ltb_lt]; lia).
    reflexivity.
Qed.

End Transfer.

(** ** The collection loop and the whole run *)

Lemma collect_one_eq N P e streams i g t :
  collect_one N P e streams i (g, t) =
  (copy_block N (r_inbuf (snd (parent_read N P e (streams i) i)))
              (fst (get_work_range N P i)) (snd (get_work_range N P i)) g,
   t ++ collect_trace N P e streams i).
Proof.
  unfold collect_one, collect_trace. destruct (get_work_range N P i). reflexivity.
Qed.

Section Collect.
Variables N P : Z.
Hypothesis Hsz : sized N P.
Variables (e : env) (streams : Z -> list byte).

(** The collection loop: every block lands in its rows of [C], nothing
    else changes. *)
Lemma collect_all_spec (g : globals) (t : list event) :
  let res := for_loop 0 P (collect_one N P e streams) (g, t) in
  A (fst res) = A g /\ B (fst res) = B g /\ C_ref (fst res) = C_ref g
  /\ snd res = t ++ flat_map (collect_trace N P e streams) (zrange 0 P)
  /\ (forall i r c, 0 <= i < P -> in_rows (get_work_range N P i) r -> 0 <= c < N ->
        C (fst res) r c =
        load_int (r_inbuf (snd (parent_read N P e (streams i) i)))
                 (Int32.wrap ((r - fst (get_work_range N P i)) * N + c)))
  /\ (forall r c, ~ (0 <= r < N /\ 0 <= c < N) -> C (fst res) r c = C g r c).
Proof using Hsz.
  pose (Inv := fun (k : Z) (s : globals * list event) =>
    A (fst s) = A g /\ B (fst s) = B g /\ C_ref (fst s) = C_ref g
    /\ snd s = t ++ flat_map (collect_trace N P e streams) (zrange 0 k)
    /\ (forall i r c, 0 <= i < k -> in_rows (get_work_range N P i) r -> 0 <= c < N ->
          C (fst s) r c =
          load_int (r_inbuf (snd (parent_read N P e (streams i) i)))
                   (Int32.wrap ((r - fst (get_work_range N P i)) * N + c)))
    /\ (forall r c, ~ (0 <= r < N /\ 0 <= c < N) -> C (fst s) r c = C g r c)).
  assert (HP : 0 <= P) by (destruct Hsz as (_ & ? & _); lia).
  apply (for_loop_inv Inv); unfold Inv.
  - exact HP.
  - simpl. rewrite app_nil_r. repeat split. intros; lia.
  - intros k [g' t'] Hk (HA & HB & HR & Ht & Hin & Hout). cbn [fst snd] in *.
    rewrite collect_one_eq. cbn [fst snd].
    pose proof (copy_block_spec N (r_inbuf (snd (parent_read N P e (streams k) k)))
                  (fst (get_work_range N P k)) (snd (get_work_range N P k)) g')
      as (HA' & HB' & HR' & HC').
    pose proof (range_bounds N P Hsz k Hk) as (B0 & B1 & B2).
    repeat split; try congruence.
    + rewrite Ht, zrange_snoc, flat_map_app by lia. simpl.
      now rewrite app_nil_r, app_assoc.
    + intros i r c Hi Hr Hc. rewrite HC'.
      destruct (Z.eq_dec i k) as [->|Hne].
      * unfold in_rows in Hr.
        replace ((fst (get_work_range N P k) <=? r) && (r <? snd (get_work_range N P k))
                 && ((0 <=? c) && (c <? N))) with true; [reflexivity|].
        symmetry. rewrite !andb_true_iff. rewrite !Z.leb_le, !Z.ltb_lt. lia.
      * replace ((fst (get_work_range N P k) <=? r) && (r <? snd (get_work_range N P k))
                 && ((0 <=? c) && (c <? N))) with false; [apply Hin; [lia | assumption..]|].
        symmetry. apply andb_false_iff. left.
        destruct ((fst (get_work_range N P k) <=? r) && (r <? snd (get_work_range N P k))) eqn:E;
          [|reflexivity].
        exfalso. apply andb_true_iff in E. rewrite Z.leb_le, Z.ltb_lt in E.
        apply (ranges_apart N P Hsz i k r); [lia | lia | assumption | exact E].
    + intros r c Hn. rewrite HC'.
      rewrite (range_closed N P Hsz k Hk). cbn [fst snd].
      replace ((row_start N P k <=? r) && (r <? row_start N P (k + 1))
               && ((0 <=? c) && (c <? N))) with false; [now apply Hout|].
      symmetry. zcases.
Qed.

End Collect.

Lemma setup_pipes_spec (e : env) (l : list Z) :
  let '(t, ok) := setup_pipes e l in
  if ok then t = map (fun i => EvPipe i (pipe_ret e i)) l
             /\ forall i, In i l -> 0 <= pipe_ret e i
  else quiet t = false.
Proof.
  induction l as [|i l IH]; simpl.
  - split; [reflexivity | intros ? []].
  - destruct (Z.ltb_spec (pipe_ret e i) 0) as [Hf|Hok]; [reflexivity|].
    destruct (setup_pipes e l) as [t ok]. destruct ok.
    + destruct IH as (-> & Hall). split; [reflexivity|].
      intros j [<-|Hj]; [exact Hok | now apply Hall].
    + simpl. exact IH.
Qed.

Lemma spawn_spec (e : env) (l : list Z) :
  let '(t, ok) := spawn e l in
  if ok then t = map (fun i => EvFork i (fork_ret e i)) l
             /\ forall i, In i l -> 0 <= fork_ret e i
  else quiet t = false.
Proof.
  induction l as [|i l IH]; simpl.
  - split; [reflexivity | intros ? []].
  - destruct (Z.ltb_spec (fork_ret e i) 0) as [Hf|Hok]; [reflexivity|].
    destruct (spawn e l) as [t ok]. destruct ok.
    + destruct IH as (-> & Hall). split; [reflexivity|].
      intros j [<-|Hj]; [exact Hok | now apply Hall].
    + simpl. exact IH.
Qed.

Lemma setup_pipes_ok (e : env) (l : list Z) :
  (forall i, In i l -> 0 <= pipe_ret e i) ->
  setup_pipes e l = (map (fun i => EvPipe i (pipe_ret e i)) l, true).
Proof.
  induction l as [|i l IH]; intros H; simpl; [reflexivity|].
  destruct (Z.ltb_spec (pipe_ret e i) 0) as [Hf|Hok].
  - specialize (H i (or_introl eq_refl)). lia.
  - rewrite IH; [reflexivity|]. intros j Hj. apply H. now right.
Qed.

Lemma spawn_ok (e : env) (l : list Z) :
  (forall i, In i l -> 0 <= fork_ret e i) ->
  spawn e l = (map (fun i => EvFork i (fork_ret e i)) l, true).
Proof.
  induction l as [|i l IH]; intros H; simpl; [reflexivity|].
  destruct (Z.ltb_spec (fork_ret e i) 0) as [Hf|Hok].
  - specialize (H i (or_introl eq_refl)). lia.
  - rewrite IH; [reflexivity|]. intros j Hj. apply H. now right.
Qed.

Lemma quiet_prologue N P e : quiet (prologue N P e) = true.
Proof.
  unfold prologue. rewrite !quiet_app. simpl.
  apply andb_true_iff; split; unfold quiet; apply forallb_forall;
    intros x Hx; apply in_map_iff in Hx; destruct Hx as (? & <- & _); reflexivity.
Qed.

(** A run in which every [pipe] and [fork] succeeds. *)
Lemma run_main_ok (N P : Z) (e : env) (g1 : globals) :
  setup_ok P e ->
  let g := multiply_reference N g1 in
  let res := for_loop 0 P (collect_one N P e (pipes_content N P e g))
                      (g, prologue N P e) in
  run_main N P e g1 = (snd res ++ report N P (fst res), fst res).
Proof.
  intros Hok g res. unfold run_main.
  rewrite setup_pipes_ok by (intros i Hi; apply in_zrange in Hi; now apply Hok).
  rewrite spawn_ok by (intros i Hi; apply in_zrange in Hi; now apply Hok).
  cbn [negb]. fold g. unfold prologue in res. fold res.
  destruct res as [g' t3]. reflexivity.
Qed.

(** A run that reports no failure went through a successful setup. *)
Lemma run_main_quiet (N P : Z) (e : env) (g1 : globals) :
  quiet (fst (run_main N P e g1)) = true -> setup_ok P e.
Proof.
  unfold run_main. intros Hq.
  pose proof (setup_pipes_spec e (zrange 0 P)) as H1.
  destruct (setup_pipes e (zrange 0 P)) as [t1 ok1]. destruct ok1.
  2:{ cbn [negb fst] in Hq. rewrite quiet_app, H1, andb_false_r in Hq. discriminate. }
  pose proof (spawn_spec e (zrange 0 P)) as H2.
  destruct (spawn e (zrange 0 P)) as [t2 ok2]. destruct ok2.
  2:{ cbn [negb fst] in Hq. rewrite !quiet_app, H2, !andb_false_r in Hq. discriminate. }
  intros j Hj. split; [apply H1 | apply H2]; now apply in_zrange.
Qed.

(** ** The verifier *)

Lemma for_ret_none {R : Type} (l : list Z) (body : Z -> option R) :
  for_ret l body = None <-> forall i, In i l -> body i = None.
Proof.
  induction l as [|x l IH]; simpl.
  - split; [intros _ ? [] | reflexivity].
  - destruct (body x) eqn:E.
    + split; [discriminate|]. intros H. rewrite <- E. apply H. now left.
    + rewrite IH. split.
      * intros H i [<-|Hi]; [exact E | now apply H].
      * intros H i Hi. apply H. now right.
Qed.

Lemma for_ret_some {R : Type} (l : list Z) (body : Z -> option R) (v : R) :
  for_ret l body = Some v -> exists i, In i l /\ body i = Some v.
Proof.
  induction l as [|x l IH]; simpl; [discriminate|].
  destruct (body x) eqn:E.
  - intros [= <-]. exists x. split; [now left | exact E].
  - intros H. destruct (IH H) as (i & Hi & Hb). exists i. split; [now right | exact Hb].
Qed.

(** [compare_results] returns 0 when [C] and [C_ref] agree on the whole
    grid and 1 when they differ somewhere. *)
Lemma compare_results_spec (N : Z) (g : globals) :
  (compare_results N g = 0
   /\ forall i j, 0 <= i < N -> 0 <= j < N -> C g i j = C_ref g i j)
  \/ (compare_results N g = 1
      /\ exists i j, 0 <= i < N /\ 0 <= j < N /\ C g i j <> C_ref g i j).
Proof.
  unfold compare_results.
  destruct (for_ret (zrange 0 N) _) as [v|] eqn:E.
  - right. apply for_ret_some in E. destruct E as (i & Hi & E).
    apply for_ret_some in E. destruct E as (j & Hj & E).
    apply in_zrange in Hi, Hj.
    destruct (Z.eqb_spec (C g i j) (C_ref g i j)) as [Heq|Hne]; simpl in E; [discriminate|].
    injection E as <-. split; [reflexivity|]. exists i, j. repeat split; assumption || lia.
  - left. split; [reflexivity|]. intros i j Hi Hj.
    rewrite for_ret_none in E. specialize (E i ltac:(apply in_zrange; lia)).
    rewrite for_ret_none in E. specialize (E j ltac:(apply in_zrange; lia)).
    destruct (Z.eqb_spec (C g i j) (C_ref g i j)); [assumption | discriminate].
Qed.

Lemma quiet_flat_map {X : Type} (f : X -> list event) (l : list X) (x : X) :
  quiet (flat_map f l) = true -> In x l -> quiet (f x) = true.
Proof.
  induction l as [|y l IH]; simpl; [intros _ []|].
  rewrite quiet_app. intros H [<-|Hx]; apply andb_true_iff in H; [apply H | apply IH; tauto].
Qed.

Section Assembled.
Variables N P : Z.
Hypothesis Hsz : sized N P.
Variables (e : env) (g1 : globals).

(** A run that reports no failure: the parent's trace, the rows of [C] and
    of [C_ref], and the verdict. *)
Lemma run_main_assembles :
  quiet (fst (run_main N P e g1)) = true ->
  (forall i, 0 <= i < P ->
     quiet (fst (child N P e (multiply_reference N g1) i)) = true) ->
  let g' := snd (run_main N P e g1) in
  A g' = A g1 /\ B g' = B g1
  /\ (forall r c, 0 <= r < N -> 0 <= c < N ->
        C g' r c = Int32.wrap (dot_product N (A g1) (B g1) r c)
        /\ C_ref g' r c = Int32.wrap (dot_product N (A g1) (B g1) r c))
  /\ compare_results N g' = 0
  /\ fst (run_main N P e g1) =
       prologue N P e
       ++ flat_map (collect_trace N P e
                      (pipes_content N P e (multiply_reference N g1)))
                   (zrange 0 P)
       ++ map (fun _ => EvWait) (zrange 0 P)
       ++ [EvPrint MsgResultHeader; EvPrint (print_matrix N (C g'));
           EvPrint MsgReferenceHeader; EvPrint (print_matrix N (C_ref g'));
           EvPrint MsgSuccess; EvExit 0].
Proof using Hsz.
  intros Hq Hch.
  pose proof (run_main_quiet N P e g1 Hq) as Hok.
  pose proof (run_main_ok N P e g1 Hok) as Hrun. cbv zeta in Hrun.
  rewrite Hrun in Hq |- *. cbn [fst snd] in *.
  set (g := multiply_reference N g1) in *.
  pose proof (collect_all_spec N P Hsz e (pipes_content N P e g) g (prologue N P e))
    as (HA & HB & HR & Ht & Hin & _).
  cbv zeta in *.
  destruct (for_loop 0 P _ (g, prologue N P e)) as [g' t']. cbn [fst snd] in *.
  destruct (multiply_reference_spec N g1) as (HA1 & HB1 & _ & HR1). fold g in HA1, HB1, HR1.
  subst t'. rewrite !quiet_app in Hq. apply andb_true_iff in Hq as (Hq & _).
  apply andb_true_iff in Hq as (_ & Hq).
  destruct (sized_in_range N P Hsz) as (S1 & S2 & S3). destruct Hsz as (H0 & _).
  assert (Hcells : forall r c, 0 <= r < N -> 0 <= c < N ->
            C g' r c = Int32.wrap (dot_product N (A g1) (B g1) r c)
            /\ C_ref g' r c = Int32.wrap (dot_product N (A g1) (B g1) r c)).
  { intros r c Hr Hc. split.
    - destruct (row_owner N P S1 S2 S3 r (Z.to_nat P) H0) as (i & Hi & Hrow).
      + lia.
      + rewrite Z2Nat.id by lia. destruct (row_start_ends N P S1 S2 S3 H0). lia.
      + rewrite Z2Nat.id in Hi by lia.
        assert (Hrows : in_rows (get_work_range N P i) r).
        { unfold in_rows. rewrite (range_closed N P Hsz i Hi). exact Hrow. }
        rewrite (Hin i r c Hi Hrows Hc).
        rewrite <- HA1, <- HB1.
        apply (block_received N P Hsz e g i r c Hi); try assumption.
        * now apply Hch.
        * apply (quiet_flat_map _ (zrange 0 P)); [exact Hq | apply in_zrange; lia].
    - rewrite HR, HR1. zcases. }
  assert (Hcmp : compare_results N g' = 0).
  { destruct (compare_results_spec N g') as [(E & _)|(_ & i & j & Hi & Hj & Hne)]; [exact E|].
    exfalso. apply Hne. destruct (Hcells i j Hi Hj) as (-> & ->). reflexivity. }
  repeat split; try congruence.
  - apply Hcells; assumption.
  - apply Hcells; assumption.
  - unfold report. rewrite Hcmp. cbn [Z.eqb]. now rewrite <- !app_assoc.
Qed.

End Assembled.

Section Blocks.
Variables N P : Z.
Hypothesis Hsz : sized N P.
Variables (e : env) (g1 : globals).

(** A child that reports no failure has put its whole block in the pipe. *)
Lemma quiet_child_block (g : globals) (i : Z) : 0 <= i < P ->
  quiet (fst (child N P e g i)) = true ->
  pipes_content N P e g i
  = bytes_of_ints (child_compute N g (fst (get_work_range N P i))
                                     (snd (get_work_range N P i))).
Proof using Hsz.
  intros Hi Hq. unfold pipes_content, child in *. cbn [fst snd] in *.
  pose proof (child_send_spec N P Hsz e g i Hi) as H. cbv zeta in H.
  rewrite (range_closed N P Hsz i Hi). cbn [fst snd].
  destruct (child_send N P e g i) as [ex st]. cbn [snd] in *.
  destruct H as (_ & [(_ & Hp & _)|(_ & _ & Hf)]); [exact Hp|].
  rewrite quiet_app, Hf in Hq. discriminate.
Qed.

(** A run that reports no failure, cell by cell: where the value of [C]
    comes from and what it is. *)
Lemma run_main_blocks (r c : Z) :
  quiet (fst (run_main N P e g1)) = true ->
  (forall i, 0 <= i < P ->
     quiet (fst (child N P e (multiply_reference N g1) i)) = true) ->
  0 <= r < N -> 0 <= c < N ->
  let g := multiply_reference N g1 in
  let final := snd (run_main N P e g1) in
  C final r c = C_ref g r c
  /\ C_ref final = C_ref g
  /\ C final r c = Int32.wrap (dot_product N (A g1) (B g1) r c)
  /\ exists i,
       0 <= i < P /\ in_rows (get_work_range N P i) r
       /\ pipes_content N P e g i
          = bytes_of_ints (child_compute N g (fst (get_work_range N P i))
                                             (snd (get_work_range N P i)))
       /\ C final r c
          = load_int (r_inbuf (received N P e g i))
                     ((r - fst (get_work_range N P i)) * N + c)
       /\ C final r c
          = nth (Z.to_nat ((r - fst (get_work_range N P i)) * N + c))
                (child_compute N g (fst (get_work_range N P i))
                                   (snd (get_work_range N P i))) 0.
Proof using Hsz.
  intros Hq Hch Hr Hc g final.
  destruct (run_main_assembles N P Hsz e g1 Hq Hch) as (_ & _ & Hcells & _).
  destruct (Hcells r c Hr Hc) as (EC & ER). fold final in EC, ER.
  pose proof (run_main_quiet N P e g1 Hq) as Hok.
  pose proof (run_main_ok N P e g1 Hok) as Hrun. cbv zeta in Hrun. fold g in Hrun.
  pose proof (collect_all_spec N P Hsz e (pipes_content N P e g) g (prologue N P e))
    as (_ & _ & HR & _ & Hin & _). cbv zeta in HR, Hin.
  assert (Efinal : final
            = fst (for_loop 0 P (collect_one N P e (pipes_content N P e g))
                            (g, prologue N P e))).
  { subst final. rewrite Hrun. reflexivity. }
  rewrite <- Efinal in HR, Hin.
  destruct (multiply_reference_spec N g1) as (HA1 & HB1 & _ & HR1).
  fold g in HA1, HB1, HR1.
  assert (Eref : C_ref g r c = Int32.wrap (dot_product N (A g1) (B g1) r c)).
  { rewrite HR1.
    replace ((0 <=? r) && (r <? N) && ((0 <=? c) && (c <? N))) with true
      by (symmetry; zcases).
    reflexivity. }
  split; [exact (eq_trans EC (eq_sym Eref)) | split; [exact HR | split; [exact EC|]]].
  destruct (sized_in_range N P Hsz) as (S1 & S2 & S3).
  pose proof Hsz as (H0 & _).
  destruct (row_owner N P S1 S2 S3 r (Z.to_nat P) H0) as (i & Hi & Hrow).
  { lia. }
  { rewrite Z2Nat.id by lia. destruct (row_start_ends N P S1 S2 S3 H0). lia. }
  rewrite Z2Nat.id in Hi by lia.
  assert (Hrows : in_rows (get_work_range N P i) r).
  { unfold in_rows. rewrite (range_closed N P Hsz i Hi). exact Hrow. }
  exists i. split; [exact Hi | split; [exact Hrows | split; [|split]]].
  - apply quiet_child_block; [exact Hi | now apply Hch].
  - rewrite (Hin i r c Hi Hrows Hc). unfold received. f_equal.
    pose proof (block_sizes N P Hsz i Hi) as (E1 & E2 & E3 & E4). cbv zeta in *.
    pose proof (range_bounds N P Hsz i Hi) as (B0 & B1 & B2).
    rewrite (range_closed N P Hsz i Hi). cbn [fst snd].
    apply Int32Facts.wrap_small.
    unfold Int32.in_range, Int32.min_signed, Int32.max_signed in *. nia.
  - rewrite child_compute_nth by assumption.
    rewrite HA1, HB1. exact EC.
Qed.

End Blocks.

Lemma build_sized : sized Build.N Build.P.
Proof.
  unfold sized, Build.N, Build.P, Int32.in_range, Int32.min_signed, Int32.max_signed. lia.
Qed.

(** C1: in the program as built ([N = 10], [P = 4]), for all input matrices
    [A] and [B], in every run that reports no failure the matrix [C] the
    parent has assembled equals, cell by cell, the matrix [C_ref] that
    [multiply_reference] computes from [A] and [B], which the parent still
    holds at the end; the value of the cell is the entry of the product of
    [A] and [B], reduced to 32 bits; and the cell has come from the worker
    that owns its row: that worker's pipe carried the bytes of the block
    [child_compute] gives for its rows, and the cell of [C] is the [int] of
    the parent's receive buffer, and the element of the worker's block, at
    the cell's position in the block. *)
Theorem distributed_equals_reference (e : env) (g1 : globals) (r c : Z) :
  quiet (fst (run_main Build.N Build.P e g1)) = true ->
  (forall i, 0 <= i < Build.P ->
     quiet (fst (child Build.N Build.P e (multiply_reference Build.N g1) i)) = true) ->
  0 <= r < Build.N -> 0 <= c < Build.N ->
  let g := multiply_reference Build.N g1 in
  let final := snd (run_main Build.N Build.P e g1) in
  C final r c = C_ref final r c
  /\ C final r c = C_ref g r c
  /\ C_ref final = C_ref g
  /\ C final r c = Int32.wrap (dot_product Build.N (A g1) (B g1) r c)
  /\ exists i,
       0 <= i < Build.P /\ in_rows (get_work_range Build.N Build.P i) r
       /\ pipes_content Build.N Build.P e g i
          = bytes_of_ints
              (child_compute Build.N g (fst (get_work_range Build.N Build.P i))
                                       (snd (get_work_range Build.N Build.P i)))
       /\ C final r c
          = load_int (r_inbuf (received Build.N Build.P e g i))
                     ((r - fst (get_work_range Build.N Build.P i)) * Build.N + c)
       /\ C final r c
          = nth (Z.to_nat ((r - fst (get_work_range Build.N Build.P i)) * Build.N + c))
                (child_compute Build.N g (fst (get_work_range Build.N Build.P i))
                                         (snd (get_work_range Build.N Build.P i))) 0.
Proof.
  intros Hq Hch Hr Hc g final.
  destruct (run_main_blocks Build.N Build.P build_sized e g1 r c Hq Hch Hr Hc)
    as (E1 & E2 & E3 & Hblock).
  fold g final in E1, E2, E3, Hblock.
  split; [|split; [exact E1 | split; [exact E2 | split; [exact E3 | exact Hblock]]]].
  exact (eq_trans E1 (eq_sym (f_equal (fun M => M r c) E2))).
Qed.

Lemma distributed_equals_reference_witness :
  C (snd (run_main Build.N Build.P ideal_env (init_matrices Build.N globals0))) 9 9
  = C_ref (multiply_reference Build.N (init_matrices Build.N globals0)) 9 9.
Proof.
  refine (proj1 (proj2 (distributed_equals_reference ideal_env
                          (init_matrices Build.N globals0) 9 9 _ _ _ _))).
  - vm_compute. reflexivity.
  - intros i Hi. unfold Build.P in Hi.
    assert (H : i = 0 \/ i = 1 \/ i = 2 \/ i = 3) by lia.
    destruct H as [->|[->|[->| ->]]]; vm_compute; reflexivity.
  - unfold Build.N. lia.
  - unfold Build.N. lia.
Defined.

(** ** The program as built *)

Lemma forallb_zrange (f : Z -> bool) lo hi x :
  forallb f (zrange lo hi) = true -> lo <= x < hi -> f x = true.
Proof.
  intros H Hx. rewrite forallb_forall in H. apply H. now apply in_zrange.
Qed.

Lemma init_matrices_spec (N : Z) (g : globals) :
  let g' := init_matrices N g in
  C g' = C g /\ C_ref g' = C_ref g
  /\ forall i j,
       A g' i j = (if (0 <=? i) && (i <? N) && ((0 <=? j) && (j <? N))
                   then Int32.add (Int32.add i j) 1 else A g i j)
       /\ B g' i j = (if (0 <=? i) && (i <? N) && ((0 <=? j) && (j <? N))
                      then (if i =? j then 2 else 1) else B g i j).
Proof.
  unfold init_matrices.
  destruct (Z_le_gt_dec 0 N) as [HN|HN].
  2:{ rewrite for_loop_empty by lia. repeat split; zcases. }
  pose (Inv := fun (i : Z) (t : globals) =>
    C t = C g /\ C_ref t = C_ref g
    /\ forall i' j',
         A t i' j' = (if (0 <=? i') && (i' <? i) && ((0 <=? j') && (j' <? N))
                      then Int32.add (Int32.add i' j') 1 else A g i' j')
         /\ B t i' j' = (if (0 <=? i') && (i' <? i) && ((0 <=? j') && (j' <? N))
                         then (if i' =? j' then 2 else 1) else B g i' j')).
  apply (for_loop_inv Inv); unfold Inv.
  - exact HN.
  - repeat split; zcases.
  - intros i t Hi (HC & HR & HAB).
    pose (InvJ := fun (j : Z) (u : globals) =>
      C u = C g /\ C_ref u = C_ref g
      /\ forall i' j',
           A u i' j' = (if (i' =? i) && ((0 <=? j') && (j' <? j))
                        then Int32.add (Int32.add i' j') 1 else A t i' j')
           /\ B u i' j' = (if (i' =? i) && ((0 <=? j') && (j' <? j))
                           then (if i' =? j' then 2 else 1) else B t i' j')).
    match goal with |- context [for_loop 0 N ?body t] =>
      assert (H : InvJ N (for_loop 0 N body t)) end.
    { apply (for_loop_inv InvJ); unfold InvJ.
      - exact HN.
      - repeat split; try assumption; zcases.
      - intros j u Hj (HC' & HR' & HAB'). cbn.
        repeat split; try assumption; unfold mset;
          destruct (HAB' i' j') as (EA & EB); rewrite ?EA, ?EB;
          destruct (Z.eqb_spec i' i); destruct (Z.eqb_spec j' j); subst; zcases. }
    destruct H as (HC' & HR' & HAB').
    repeat split; try assumption;
      destruct (HAB' i' j') as (EA & EB); destruct (HAB i' j') as (EA' & EB');
      rewrite ?EA, ?EB, ?EA', ?EB'; zcases.
Qed.

Lemma accumulation_checked :
  forallb (fun r => forallb (fun c => forallb (fun k =>
    accumulation_ok (A (init_matrices Build.N globals0))
                    (B (init_matrices Build.N globals0)) r c k)
    (zrange 0 Build.N)) (zrange 0 Build.N)) (zrange 0 Build.N) = true.
Proof. vm_compute. reflexivity. Qed.

Lemma accumulation_ok_sound (MA MB : Matrix) (r c k : Z) :
  accumulation_ok MA MB r c k = true ->
  (1 <= MA r k * MB k c <= 38
   /\ Int32.mul (MA r k) (MB k c) = MA r k * MB k c)
  /\ (1 <= sum_n (fun k => MA r k * MB k c) (Z.to_nat (k + 1)) <= 164
      /\ acc_after MA MB r c (k + 1)
         = sum_n (fun k => MA r k * MB k c) (Z.to_nat (k + 1))).
Proof.
  unfold accumulation_ok. cbv zeta.
  rewrite !andb_true_iff, !Z.leb_le, !Z.eqb_eq. tauto.
Qed.

Lemma accumulation_ok_last (MA MB : Matrix) (r c : Z) :
  accumulation_ok MA MB r c 9 = true ->
  1 <= dot_product Build.N MA MB r c <= 164
  /\ Int32.in_range (dot_product Build.N MA MB r c).
Proof.
  intros H. apply accumulation_ok_sound in H. destruct H as (_ & H & _).
  change (sum_n (fun k => MA r k * MB k c) (Z.to_nat (9 + 1)))
    with (dot_product Build.N MA MB r c) in H.
  split; [exact H|].
  unfold Int32.in_range, Int32.min_signed, Int32.max_signed. lia.
Qed.

Lemma init_values (r c : Z) : 0 <= r < Build.N -> 0 <= c < Build.N ->
  A (init_matrices Build.N globals0) r c = r + c + 1
  /\ B (init_matrices Build.N globals0) r c = (if r =? c then 2 else 1).
Proof.
  intros Hr Hc.
  destruct (init_matrices_spec Build.N globals0) as (_ & _ & HAB).
  destruct (HAB r c) as (EA & EB). rewrite EA, EB. unfold Build.N in *.
  replace ((0 <=? r) && (r <? 10) && ((0 <=? c) && (c <? 10))) with true
    by (symmetry; zcases).
  split; [|reflexivity]. int32_exact.
  unfold Int32.in_range, Int32.min_signed, Int32.max_signed. lia.
Qed.

(** C10: with [A[i][j] = i + j + 1], [B[i][j] = 2] on the diagonal and 1
    elsewhere, and [N = 10], every product is between 1 and 38 and every
    partial sum between 1 and 164, so the 32-bit accumulator of the
    reference kernel and of the workers' kernel holds the exact sum at every
    step and every element of [C_ref] and of [C] is the exact entry of the
    product. *)
Theorem no_overflow_N10 (i r c k : Z) :
  0 <= r < Build.N -> 0 <= c < Build.N -> 0 <= k < Build.N ->
  in_rows (get_work_range Build.N Build.P i) r ->
  let g := init_matrices Build.N globals0 in
  let p := A g r k * B g k c in
  let s := sum_n (fun k => A g r k * B g k c) (Z.to_nat (k + 1)) in
  let d := dot_product Build.N (A g) (B g) r c in
  (A g r k = r + k + 1 /\ B g k c = (if k =? c then 2 else 1))
  /\ (1 <= p <= 38 /\ Int32.mul (A g r k) (B g k c) = p)
  /\ (1 <= s <= 164 /\ acc_after (A g) (B g) r c (k + 1) = s)
  /\ (1 <= d <= 164 /\ Int32.in_range d)
  /\ C_ref (multiply_reference Build.N g) r c = d
  /\ nth (Z.to_nat ((r - fst (get_work_range Build.N Build.P i)) * Build.N + c))
         (child_compute Build.N g (fst (get_work_range Build.N Build.P i))
                                  (snd (get_work_range Build.N Build.P i))) 0 = d
  /\ (forall e : env,
        quiet (fst (main Build.N Build.P e)) = true ->
        (forall j, 0 <= j < Build.P ->
           quiet (fst (child Build.N Build.P e (multiply_reference Build.N g) j))
           = true) ->
        C (snd (main Build.N Build.P e)) r c = d).
Proof.
  intros Hr Hc Hk Hin g p s d.
  assert (Hchk : forall k', 0 <= k' < Build.N ->
            accumulation_ok (A g) (B g) r c k' = true).
  { intros k' Hk'. pose proof accumulation_checked as H.
    apply (forallb_zrange _ _ _ r) in H; [|exact Hr].
    apply (forallb_zrange _ _ _ c) in H; [|exact Hc].
    apply (forallb_zrange _ _ _ k') in H; [|exact Hk']. exact H. }
  assert (H9 : 0 <= 9 < Build.N) by (unfold Build.N; lia).
  destruct (accumulation_ok_last (A g) (B g) r c (Hchk 9 H9)) as (Hd & Hdr).
  destruct (accumulation_ok_sound (A g) (B g) r c k (Hchk k Hk)) as (Hp & Hs).
  split; [|split; [exact Hp|split; [exact Hs|split; [|split; [|split]]]]].
  - split; [exact (proj1 (init_values r k Hr Hk))
           | exact (proj2 (init_values k c Hk Hc))].
  - split; assumption.
  - destruct (multiply_reference_spec Build.N g) as (_ & _ & _ & H).
    refine (eq_trans (H r c) _).
    replace ((0 <=? r) && (r <? Build.N) && ((0 <=? c) && (c <? Build.N)))
      with true by (symmetry; zcases).
    exact (Int32Facts.wrap_small _ Hdr).
  - refine (eq_trans (child_compute_nth Build.N g _ _ r c Hin Hc) _).
    exact (Int32Facts.wrap_small _ Hdr).
  - intros e Hq Hch.
    destruct (run_main_assembles Build.N Build.P build_sized e g Hq Hch)
      as (_ & _ & Hcells & _).
    refine (eq_trans (proj1 (Hcells r c Hr Hc)) _).
    exact (Int32Facts.wrap_small _ Hdr).
Qed.

Lemma no_overflow_N10_witness :
  C_ref (multiply_reference Build.N (init_matrices Build.N globals0)) 9 9
  = dot_product Build.N (A (init_matrices Build.N globals0))
                        (B (init_matrices Build.N globals0)) 9 9.
Proof.
  assert (H1 : 0 <= 9 < Build.N) by (unfold Build.N; lia).
  assert (H2 : in_rows (get_work_range Build.N Build.P 3) 9)
    by (unfold in_rows;
        change (get_work_range Build.N Build.P 3) with (8, 10); simpl; lia).
  exact (proj1 (proj2 (proj2 (proj2 (proj2
           (no_overflow_N10 3 9 9 9 H1 H1 H1 H2)))))).
Defined.

Lemma sum_n_ext (f h : Z -> Z) (n : nat) :
  (forall k, 0 <= k < Z.of_nat n -> f k = h k) -> sum_n f n = sum_n h n.
Proof.
  induction n as [|n IH]; intros E; simpl; [reflexivity|].
  rewrite IH, E by (try (intros k Hk; apply E); lia). reflexivity.
Qed.

(** The sum of a row against a column that holds [d] in row [c] and [o]
    elsewhere. *)
Lemma sum_n_marked_column (f : Z -> Z) (c d o : Z) (n : nat) : 0 <= c ->
  sum_n (fun k => f k * (if k =? c then d else o)) n
  = o * sum_n f n + (if c <? Z.of_nat n then (d - o) * f c else 0).
Proof.
  intros Hc. induction n as [|n IH].
  - simpl. destruct (Z.ltb_spec c 0); lia.
  - cbn [sum_n]. rewrite IH.
    destruct (Z.eqb_spec (Z.of_nat n) c) as [E|E];
      destruct (Z.ltb_spec c (Z.of_nat n));
      destruct (Z.ltb_spec c (Z.of_nat (S n))); subst; try lia.
Qed.

Lemma sum_n_arith (r : Z) (n : nat) :
  sum_n (fun k => r + k + 1) n
  = Z.of_nat n * r + Z.of_nat n * (Z.of_nat n + 1) / 2.
Proof.
  induction n as [|n IH]; [reflexivity|].
  cbn [sum_n]. rewrite IH.
  replace (Z.of_nat (S n) * (Z.of_nat (S n) + 1))
    with (Z.of_nat n * (Z.of_nat n + 1) + (Z.of_nat n + 1) * 2) by lia.
  rewrite Z.div_add by lia. lia.
Qed.

(** The entry of the product when row [r] of the left matrix holds
    [r + k + 1] and column [c] of the right one holds 2 in row [c] and 1
    elsewhere. *)
Lemma marked_dot_product (N : Z) (MA MB : Matrix) (r c : Z) :
  0 <= N -> 0 <= c < N ->
  (forall k, 0 <= k < N ->
     MA r k = r + k + 1 /\ MB k c = (if k =? c then 2 else 1)) ->
  dot_product N MA MB r c = N * r + N * (N + 1) / 2 + (r + c + 1).
Proof.
  intros H0 Hc Hinit. unfold dot_product.
  rewrite (sum_n_ext _ (fun k => (r + k + 1) * (if k =? c then 2 else 1))).
  - rewrite sum_n_marked_column, sum_n_arith by lia.
    rewrite Z2Nat.id by lia.
    replace (c <? N) with true by (symmetry; apply Z.ltb_lt; lia). lia.
  - intros k Hk. rewrite Z2Nat.id in Hk by lia.
    destruct (Hinit k Hk) as (-> & ->). reflexivity.
Qed.

Lemma marked_entry_10 (MA MB : Matrix) (r c : Z) :
  0 <= r < Build.N -> 0 <= c < Build.N ->
  (forall k, 0 <= k < Build.N ->
     MA r k = r + k + 1 /\ MB k c = (if k =? c then 2 else 1)) ->
  Int32.wrap (dot_product Build.N MA MB r c) = 11 * r + c + 56.
Proof.
  intros Hr Hc Hinit.
  rewrite (marked_dot_product Build.N MA MB r c) by (unfold Build.N in *; lia || assumption).
  unfold Build.N in *. change (10 * (10 + 1) / 2) with 55.
  rewrite Int32Facts.wrap_small; [lia|].
  unfold Int32.in_range, Int32.min_signed, Int32.max_signed. lia.
Qed.

Lemma built_entry (r c : Z) : 0 <= r < Build.N -> 0 <= c < Build.N ->
  Int32.wrap (dot_product Build.N (A (init_matrices Build.N globals0))
                                  (B (init_matrices Build.N globals0)) r c)
  = 11 * r + c + 56.
Proof.
  intros Hr Hc.
  exact (marked_entry_10 _ _ r c Hr Hc
           (fun k Hk => conj (proj1 (init_values r k Hr Hk))
                             (proj2 (init_values k c Hk Hc)))).
Qed.

(** C6: with [N = 10] and [P = 4] the ranges are [0,3), [3,6), [6,8) and
    [8,10), of 3, 3, 2 and 2 rows; [A[i][j] = i + j + 1] and [B[i][j]] is 2
    on the diagonal and 1 elsewhere; and in a run that reports no failure
    [C] equals [C_ref] at every cell, [compare_results] returns 0 and the
    program prints the success message before it exits.  [C_ref] is the
    matrix [multiply_reference] computes from these inputs, and the common
    value of the cell in row [r] and column [c] is [11 * r + c + 56], the
    entry of the product; the cell of [C] has come from the worker that owns
    row [r], through that worker's pipe and the parent's receive buffer. *)
Theorem scenario_N10_P4 (e : env) (r c : Z) :
  quiet (fst (main Build.N Build.P e)) = true ->
  (forall i, 0 <= i < Build.P ->
     quiet (fst (child Build.N Build.P e
                   (multiply_reference Build.N (init_matrices Build.N globals0)) i))
     = true) ->
  0 <= r < Build.N -> 0 <= c < Build.N ->
  let g := multiply_reference Build.N (init_matrices Build.N globals0) in
  let g' := snd (main Build.N Build.P e) in
  map (get_work_range Build.N Build.P) [0; 1; 2; 3]
    = [(0, 3); (3, 6); (6, 8); (8, 10)]
  /\ map (fun i => range_size (get_work_range Build.N Build.P i)) [0; 1; 2; 3]
     = [3; 3; 2; 2]
  /\ (A g' r c = r + c + 1 /\ B g' r c = (if r =? c then 2 else 1))
  /\ C g' r c = C_ref g' r c
  /\ compare_results Build.N g' = 0
  /\ (exists t, fst (main Build.N Build.P e) = t ++ [EvPrint MsgSuccess; EvExit 0])
  /\ C_ref g' = C_ref g
  /\ C_ref g r c = 11 * r + c + 56
  /\ C g' r c = 11 * r + c + 56
  /\ exists i,
       0 <= i < Build.P /\ in_rows (get_work_range Build.N Build.P i) r
       /\ pipes_content Build.N Build.P e g i
          = bytes_of_ints
              (child_compute Build.N g (fst (get_work_range Build.N Build.P i))
                                       (snd (get_work_range Build.N Build.P i)))
       /\ C g' r c
          = load_int (r_inbuf (received Build.N Build.P e g i))
                     ((r - fst (get_work_range Build.N Build.P i)) * Build.N + c)
       /\ C g' r c
          = nth (Z.to_nat ((r - fst (get_work_range Build.N Build.P i)) * Build.N + c))
                (child_compute Build.N g (fst (get_work_range Build.N Build.P i))
                                         (snd (get_work_range Build.N Build.P i))) 0.
Proof.
  intros Hq Hch Hr Hc g g'. unfold main in *.
  destruct (run_main_assembles Build.N Build.P build_sized e _ Hq Hch)
    as (HA & HB & Hcells & Hcmp & Ht).
  destruct (run_main_blocks Build.N Build.P build_sized e _ r c Hq Hch Hr Hc)
    as (E1 & E2 & E3 & Hblock).
  fold g' in HA, HB, Hcells, Hcmp, Ht.
  fold g g' in E1, E2, E3, Hblock.
  pose proof (built_entry r c Hr Hc) as EV.
  split; [reflexivity | split; [reflexivity | split; [|split; [|split; [|split]]]]].
  - destruct (init_values r c Hr Hc) as (EA & EB).
    split; [exact (eq_trans (f_equal (fun M => M r c) HA) EA)
           | exact (eq_trans (f_equal (fun M => M r c) HB) EB)].
  - exact (eq_trans (proj1 (Hcells r c Hr Hc))
                    (eq_sym (proj2 (Hcells r c Hr Hc)))).
  - exact Hcmp.
  - rewrite Ht. eexists.
    rewrite !app_assoc.
    change [EvPrint MsgResultHeader; EvPrint (print_matrix Build.N (C g'));
            EvPrint MsgReferenceHeader; EvPrint (print_matrix Build.N (C_ref g'));
            EvPrint MsgSuccess; EvExit 0]
      with ([EvPrint MsgResultHeader; EvPrint (print_matrix Build.N (C g'));
             EvPrint MsgReferenceHeader; EvPrint (print_matrix Build.N (C_ref g'))]
            ++ [EvPrint MsgSuccess; EvExit 0]).
    rewrite app_assoc. reflexivity.
  - split; [exact E2 | split; [|split; [|exact Hblock]]].
    + exact (eq_trans (eq_sym E1) (eq_trans E3 EV)).
    + exact (eq_trans E3 EV).
Qed.

Lemma ideal_run_quiet :
  quiet (fst (main Build.N Build.P ideal_env)) = true
  /\ forall i, 0 <= i < Build.P ->
       quiet (fst (child Build.N Build.P ideal_env
                     (multiply_reference Build.N (init_matrices Build.N globals0)) i))
       = true.
Proof.
  split; [vm_compute; reflexivity|].
  intros i Hi. unfold Build.P in Hi.
  assert (H : i = 0 \/ i = 1 \/ i = 2 \/ i = 3) by lia.
  destruct H as [->|[->|[->| ->]]]; vm_compute; reflexivity.
Defined.

Lemma scenario_N10_P4_witness :
  C (snd (main Build.N Build.P ideal_env)) 4 7 = 11 * 4 + 7 + 56.
Proof.
  assert (H1 : 0 <= 4 < Build.N) by (unfold Build.N; lia).
  assert (H2 : 0 <= 7 < Build.N) by (unfold Build.N; lia).
  exact (proj1 (proj2 (proj2 (proj2 (proj2 (proj2 (proj2 (proj2
           (scenario_N10_P4 ideal_env 4 7 (proj1 ideal_run_quiet)
              (proj2 ideal_run_quiet) H1 H2))))))))).
Defined.


(** ** The order in which the verifier compares *)

Lemma for_ret_visit_result {X R : Type} (l : list Z)
    (body : Z -> list X * option R) :
  snd (for_ret_visit l body) = for_ret l (fun i => snd (body i)).
Proof.
  induction l as [|i l IH]; simpl; [reflexivity|].
  destruct (body i) as [v [x|]]; simpl; [reflexivity|].
  destruct (for_ret_visit l body) as [v' res']. exact IH.
Qed.

Lemma for_ret_ext {R : Type} (l : list Z) (f h : Z -> option R) :
  (forall i, f i = h i) -> for_ret l f = for_ret l h.
Proof.
  intros E. induction l as [|i l IH]; simpl; [reflexivity|].
  rewrite E, IH. reflexivity.
Qed.

Lemma compare_results_visit_result (N : Z) (g : globals) :
  snd (compare_results_visit N g) = compare_results N g.
Proof.
  unfold compare_results_visit, compare_results.
  match goal with |- context [for_ret_visit (zrange 0 N) ?b] =>
    pose proof (for_ret_visit_result (zrange 0 N) b) as E;
    destruct (for_ret_visit (zrange 0 N) b) as [v r] end.
  cbn [snd] in *. rewrite E.
  rewrite (for_ret_ext _ _
             (fun i => for_ret (zrange 0 N) (fun j =>
                if negb (C g i j =? C_ref g i j) then Some 1 else None))).
  - reflexivity.
  - intros i. now rewrite for_ret_visit_result.
Qed.

Lemma for_ret_visit_scan {X R : Type} (good : X -> Prop) (f : Z -> list X)
    (l : list Z) (body : Z -> list X * option R) :
  (forall i, scan_spec good (f i) (fst (body i)) (snd (body i))) ->
  scan_spec good (flat_map f l) (fst (for_ret_visit l body))
            (snd (for_ret_visit l body)).
Proof.
  intros Hb. induction l as [|i l IH]; simpl.
  - split; [reflexivity | constructor].
  - specialize (Hb i). destruct (body i) as [v [x|]]; simpl in *.
    + destruct Hb as (pre & p & rest & -> & -> & Hp & Hpre).
      exists pre, p, (rest ++ flat_map f l). repeat split; try assumption.
      now rewrite <- app_assoc.
    + destruct Hb as (-> & Hall).
      destruct (for_ret_visit l body) as [v' [x'|]]; simpl in *.
      * destruct IH as (pre & p & rest & -> & -> & Hp & Hpre).
        exists (f i ++ pre), p, rest. repeat split; try assumption.
        -- now rewrite <- app_assoc.
        -- now rewrite <- app_assoc.
        -- apply Forall_app. split; assumption.
      * destruct IH as (-> & Hall'). split; [reflexivity|].
        apply Forall_app. split; assumption.
Qed.

Lemma grid_length (N : Z) : 0 <= N -> Z.of_nat (length (grid N)) = N * N.
Proof.
  intros HN. unfold grid.
  rewrite (length_flat_map_chunks _ (Z.to_nat N)).
  - rewrite zrange_length. nia.
  - intros x. rewrite length_map, zrange_length. f_equal. lia.
Qed.

Lemma in_grid (N : Z) (p : Z * Z) :
  In p (grid N) <-> 0 <= fst p < N /\ 0 <= snd p < N.
Proof.
  unfold grid. rewrite in_flat_map. split.
  - intros (i & Hi & Hp). apply in_map_iff in Hp. destruct Hp as (j & <- & Hj).
    apply in_zrange in Hi, Hj. simpl. lia.
  - destruct p as [i j]. simpl. intros (Hi & Hj). exists i. split.
    + apply in_zrange. lia.
    + apply in_map_iff. exists j. split; [reflexivity | apply in_zrange; lia].
Qed.

(** C5: [compare_results] goes through the [N * N] positions in row-major
    order; it stops at the first position where [C] and [C_ref] differ and
    returns 1 (failure), and it returns 0 (success) exactly when [C] and
    [C_ref] agree at every position, having then compared them all. *)
Theorem compare_results_scans (N : Z) (g : globals) :
  let visited := fst (compare_results_visit N g) in
  let res := snd (compare_results_visit N g) in
  res = compare_results N g
  /\ (res = 0 \/ res = 1)
  /\ (res = 0 <->
      forall i j, 0 <= i < N -> 0 <= j < N -> C g i j = C_ref g i j)
  /\ (res = 0 -> visited = grid N)
  /\ (res = 1 ->
      exists pre p rest,
        grid N = pre ++ p :: rest /\ visited = pre ++ [p]
        /\ ~ agree g p /\ Forall (agree g) pre)
  /\ (0 <= N -> Z.of_nat (length (grid N)) = N * N).
Proof.
  intros visited res.
  set (inner := fun i : Z =>
         for_ret_visit (zrange 0 N) (fun j =>
           ([(i, j)],
            if negb (C g i j =? C_ref g i j) then Some 1 else None))).
  assert (Hinner : forall i,
            scan_spec (agree g) (map (fun j => (i, j)) (zrange 0 N))
                      (fst (inner i)) (snd (inner i))
            /\ (forall x, snd (inner i) = Some x -> x = 1)).
  { intros i. subst inner. cbv beta. generalize (zrange 0 N) as js.
    induction js as [|j js (IH1 & IH2)]; simpl.
    - split; [split; [reflexivity | constructor] | discriminate].
    - unfold agree at 1. 
      destruct (Z.eqb_spec (C g i j) (C_ref g i j)) as [E|E]; simpl.
      + destruct (for_ret_visit js _) as [v' [x'|]]; simpl in *.
        * split; [|exact IH2].
          destruct IH1 as (pre & p & rest & -> & -> & Hp & Hpre).
          exists ((i, j) :: pre), p, rest. repeat split; try assumption.
          constructor; assumption.
        * split; [|discriminate]. destruct IH1 as (-> & Hall).
          split; [reflexivity|]. constructor; assumption.
      + split.
        * exists [], (i, j), (map (fun j0 => (i, j0)) js).
          repeat split; [exact E | constructor].
        * now intros x [= <-]. }
  assert (Hscan : scan_spec (agree g) (grid N)
                    (fst (for_ret_visit (zrange 0 N) inner))
                    (snd (for_ret_visit (zrange 0 N) inner))).
  { apply for_ret_visit_scan. intros i. apply Hinner. }
  assert (Hone : forall x, snd (for_ret_visit (zrange 0 N) inner) = Some x -> x = 1).
  { intros x Hx. rewrite for_ret_visit_result in Hx.
    apply for_ret_some in Hx. destruct Hx as (i & _ & Hi).
    now apply (proj2 (Hinner i)). }
  assert (Hres : res = compare_results N g)
    by apply compare_results_visit_result.
  assert (Ev : compare_results_visit N g =
               (fst (for_ret_visit (zrange 0 N) inner),
                match snd (for_ret_visit (zrange 0 N) inner) with
                | Some x => x
                | None => 0
                end)).
  { unfold compare_results_visit. fold inner.
    destruct (for_ret_visit (zrange 0 N) inner) as [v r]. reflexivity. }
  revert Hres. subst visited res. rewrite Ev. clear Ev. intros Hres.
  destruct (for_ret_visit (zrange 0 N) inner) as [v [x|]]; cbn [fst snd] in *.
  - rewrite (Hone x eq_refl) in *.
    destruct Hscan as (pre & p & rest & Hg & Hv & Hp & Hpre).
    split; [exact Hres | split; [now right | split; [split | split; [|split]]]].
    + discriminate.
    + intros Hall. exfalso. apply Hp. unfold agree.
      assert (Hin : In p (grid N)) by (rewrite Hg; apply in_elt).
      apply in_grid in Hin. apply Hall; tauto.
    + discriminate.
    + intros _. exists pre, p, rest. repeat split; assumption.
    + apply grid_length.
  - destruct Hscan as (Hv & Hall).
    split; [exact Hres | split; [now left | split; [split | split; [|split]]]].
    + intros _ i j Hi Hj. rewrite Forall_forall in Hall.
      apply (Hall (i, j)). rewrite Hv. apply in_grid. simpl. lia.
    + reflexivity.
    + intros _. exact Hv.
    + discriminate.
    + apply grid_length.
Qed.

(** ** Empty ranges and the frame of the copy *)

Lemma block_count_empty (N s : Z) : block_bytes (block_count N s s) = 0.
Proof.
  unfold block_bytes, block_count, Int32.mul, Int32.sub.
  rewrite Z.sub_diag. reflexivity.
Qed.

(** C8: a worker whose range is empty ([start = end]) expects zero bytes;
    the child leaves its write loop at once, having made no [write] and
    reported nothing, and puts nothing in its pipe; the parent leaves its
    read loop at once, having made no [read] and reported nothing, and the
    copy changes nothing. *)
Theorem zero_length_range (N P : Z) (e : env) (g : globals)
    (stream : list byte) (t : list event) (i s : Z) :
  get_work_range N P i = (s, s) ->
  expected_bytes N P i = 0
  /\ child_send N P e g i
     = (LoopDone, mkW 0 [] (write_sched e i) [EvClose i ReadEnd])
  /\ child N P e g i = ([EvClose i ReadEnd; EvClose i WriteEnd; EvExit 0], [])
  /\ parent_read N P e stream i
     = (LoopDone,
        mkR 0 (stack e i) stream (read_sched e i) [EvClose i WriteEnd])
  /\ collect_one N P e (fun _ => stream) i (g, t)
     = (g, t ++ [EvClose i WriteEnd; EvClose i ReadEnd]).
Proof.
  intros Hrange.
  assert (E0 : expected_bytes N P i = 0).
  { unfold expected_bytes. rewrite Hrange. apply block_count_empty. }
  assert (E1 : child_send N P e g i
               = (LoopDone, mkW 0 [] (write_sched e i) [EvClose i ReadEnd])).
  { unfold child_send. rewrite Hrange, block_count_empty. reflexivity. }
  assert (E2 : parent_read N P e stream i
               = (LoopDone,
                  mkR 0 (stack e i) stream (read_sched e i) [EvClose i WriteEnd])).
  { unfold parent_read. rewrite Hrange, block_count_empty. reflexivity. }
  repeat split; try assumption.
  - unfold child. rewrite E1. reflexivity.
  - unfold collect_one. rewrite Hrange, E2. cbn [snd r_inbuf r_trace].
    unfold copy_block. rewrite for_loop_empty by lia. reflexivity.
Qed.

Lemma zero_length_range_witness :
  collect_one 2 4 ideal_env (fun _ => []) 3 (globals0, [])
  = (globals0, [] ++ [EvClose 3 WriteEnd; EvClose 3 ReadEnd]).
Proof.
  exact (proj2 (proj2 (proj2 (proj2
    (zero_length_range 2 4 ideal_env globals0 [] [] 3 2 eq_refl))))).
Defined.

(** C9: the iteration of the collection loop for worker [i] changes [C]
    only in the rows of worker [i]'s range (and only in columns 0 to
    [N - 1]); the rest of [C] and the matrices [A], [B] and [C_ref] are
    left as they were. *)
Theorem copy_step_frame (N P : Z) (e : env) (streams : Z -> list byte)
    (i : Z) (g : globals) (t : list event) (r c : Z) :
  ~ (in_rows (get_work_range N P i) r /\ 0 <= c < N) ->
  let g' := fst (collect_one N P e streams i (g, t)) in
  C g' r c = C g r c
  /\ A g' = A g /\ B g' = B g /\ C_ref g' = C_ref g.
Proof.
  intros Hout g'. subst g'. rewrite collect_one_eq. cbn [fst].
  destruct (copy_block_spec N (r_inbuf (snd (parent_read N P e (streams i) i)))
              (fst (get_work_range N P i)) (snd (get_work_range N P i)) g)
    as (HA & HB & HR & HC).
  repeat split; try assumption.
  rewrite HC. unfold in_rows in Hout.
  replace ((fst (get_work_range N P i) <=? r) && (r <? snd (get_work_range N P i))
           && ((0 <=? c) && (c <? N))) with false; [reflexivity|].
  symmetry. zcases.
Qed.

Lemma copy_step_frame_witness :
  C (fst (collect_one Build.N Build.P ideal_env (fun _ => []) 1 (globals0, [])))
    7 2
  = C globals0 7 2.
Proof.
  refine (proj1 (copy_step_frame Build.N Build.P ideal_env (fun _ => []) 1
                   globals0 [] 7 2 _)).
  unfold in_rows. change (get_work_range Build.N Build.P 1) with (3, 6).
  simpl. lia.
Defined.

(** ** Short transfers *)

Lemma load_int_ext (buf buf' : buffer) (idx : Z) :
  (forall a, buf a = buf' a) -> load_int buf idx = load_int buf' idx.
Proof. intros E. unfold load_int. now rewrite !E. Qed.

Lemma wrap_inj_unsigned (x y : Z) :
  0 <= x < 2 ^ 32 -> 0 <= y < 2 ^ 32 -> Int32.wrap x = Int32.wrap y -> x = y.
Proof.
  intros Hx Hy E.
  assert (M : x mod 2 ^ 32 = y mod 2 ^ 32).
  { change (eqm (2 ^ 32) x y).
    rewrite <- (Int32Facts.wrap_eqm x), <- (Int32Facts.wrap_eqm y), E. reflexivity. }
  rewrite !Z.mod_small in M by assumption. exact M.
Qed.

(** Two buffers that give the same [int] at index [idx] hold the same four
    bytes there. *)
Lemma load_int_inj (buf buf' : buffer) (idx : Z) :
  load_int buf idx = load_int buf' idx ->
  forall a, 4 * idx <= a < 4 * idx + 4 -> buf a = buf' a.
Proof.
  unfold load_int. intros E a Ha.
  apply wrap_inj_unsigned in E;
    try (match goal with |- 0 <= le_combine ?l < _ =>
           exact (le_combine_bound l) end).
  apply le_combine_inj in E; [|reflexivity].
  injection E as E0 E1 E2 E3.
  assert (H : a = 4 * idx \/ a = 4 * idx + 1 \/ a = 4 * idx + 2 \/ a = 4 * idx + 3)
    by lia.
  destruct H as [->|[->|[->| ->]]]; assumption.
Qed.

(** The converse of [load_int_bytes_of_ints]: a buffer that gives the
    [idx]-th [int] of an array holds its bytes there. *)
Lemma load_int_bytes_of_ints_inv (buf : buffer) (l : list Z) (idx : Z) :
  0 <= idx < Z.of_nat (length l) ->
  load_int buf idx = Int32.wrap (nth (Z.to_nat idx) l 0) ->
  forall a, 4 * idx <= a < 4 * idx + 4 ->
    buf a = nth (Z.to_nat a) (bytes_of_ints l) Byte.x00.
Proof.
  intros Hidx E.
  apply (load_int_inj buf (fun a => nth (Z.to_nat a) (bytes_of_ints l) Byte.x00)).
  rewrite E. symmetry. apply load_int_bytes_of_ints; [exact Hidx | reflexivity].
Qed.

Section ShortBlock.
Variables N P : Z.
Hypothesis Hsz : sized N P.
Variables (e : env) (g : globals) (i : Z).
Hypothesis Hi : 0 <= i < P.

Local Abbreviation start := (fst (get_work_range N P i)).
Local Abbreviation end_ := (snd (get_work_range N P i)).
Local Abbreviation data := (bytes_of_ints (child_compute N g start end_)).
Local Abbreviation st := (received N P e g i).

(** What the parent has received from child [i] is the beginning of the
    child's block. *)
Lemma received_prefix :
  0 <= r_offset st <= expected_bytes N P i
  /\ (forall a, r_inbuf st a = partial_buffer data (stack e i) (r_offset st) a)
  /\ firstn (Z.to_nat (r_offset st)) (pipes_content N P e g i)
     = firstn (Z.to_nat (r_offset st)) data.
Proof using Hsz Hi.
  pose proof (block_sizes N P Hsz i Hi) as (E1 & E2 & E3 & E4). cbv zeta in *.
  pose proof (child_send_spec N P Hsz e g i Hi) as Hs. cbv zeta in Hs.
  pose proof (parent_read_spec N P Hsz e (pipes_content N P e g i) i Hi) as Hr.
  unfold received.
  destruct (parent_read N P e (pipes_content N P e g i) i) as [ex rs].
  cbn [snd]. destruct Hr as ((Ho & Hlen & _ & Hbuf) & _).
  rewrite (range_closed N P Hsz i Hi). cbn [fst snd].
  set (d := bytes_of_ints (child_compute N g (row_start N P i) (row_start N P (i + 1))))
    in *.
  assert (Hpipe : exists k, pipes_content N P e g i = firstn k d).
  { unfold pipes_content, child. cbn [snd].
    destruct (child_send N P e g i) as [ex' ws]. cbn [snd].
    destruct Hs as ((_ & Hp) & _). eexists. exact Hp. }
  destruct Hpipe as (k & Hpipe). rewrite Hpipe in *.
  assert (Hk : (Z.to_nat (r_offset rs) <= k)%nat).
  { rewrite length_firstn in Hlen. lia. }
  split; [lia | split].
  - intros a. rewrite Hbuf. unfold partial_buffer.
    destruct ((0 <=? a) && (a <? r_offset rs)) eqn:Ea; [|reflexivity].
    apply andb_true_iff in Ea. rewrite Z.leb_le, Z.ltb_lt in Ea.
    rewrite nth_firstn.
    replace (Z.to_nat a <? k)%nat with true; [reflexivity|].
    symmetry. apply Nat.ltb_lt. lia.
  - rewrite firstn_firstn. f_equal. lia.
Qed.

(** A cell of block [i] read from the receive buffer is the entry of the
    product exactly when the four bytes it is read from are, for the part
    that was not received, the bytes of the child's block. *)
Lemma short_cell_iff (r c : Z) :
  in_rows (get_work_range N P i) r -> 0 <= c < N ->
  let idx := (r - start) * N + c in
  load_int (r_inbuf st) idx = Int32.wrap (dot_product N (A g) (B g) r c)
  <-> (forall a, 4 * idx <= a < 4 * idx + 4 -> r_offset st <= a ->
         stack e i a = nth (Z.to_nat a) data Byte.x00).
Proof using Hsz Hi.
  intros Hr Hc idx.
  pose proof (block_sizes N P Hsz i Hi) as (E1 & E2 & E3 & E4). cbv zeta in *.
  pose proof (range_bounds N P Hsz i Hi) as (B0 & B1 & B2).
  destruct received_prefix as (Ho & Hbuf & _).
  assert (Hcount : Z.of_nat (length (child_compute N g start end_))
                   = (snd (get_work_range N P i) - fst (get_work_range N P i)) * N).
  { rewrite child_compute_length, (range_closed N P Hsz i Hi). cbn [fst snd].
    destruct Hsz as (H0 & _). rewrite Nat2Z.inj_mul, !Z2Nat.id by lia. reflexivity. }
  assert (Hnth : Int32.wrap (nth (Z.to_nat idx) (child_compute N g start end_) 0)
                 = Int32.wrap (dot_product N (A g) (B g) r c)).
  { subst idx. rewrite child_compute_nth by assumption. apply Int32Facts.wrap_wrap. }
  assert (Hidx : 0 <= idx < Z.of_nat (length (child_compute N g start end_))).
  { rewrite Hcount. unfold in_rows in Hr. subst idx.
    rewrite (range_closed N P Hsz i Hi) in *. cbn [fst snd] in *. nia. }
  rewrite <- Hnth. split.
  - intros E a Ha Hoa.
    pose proof (load_int_bytes_of_ints_inv _ _ idx Hidx E a Ha) as Ea.
    rewrite Hbuf in Ea. unfold partial_buffer in Ea.
    replace ((0 <=? a) && (a <? r_offset st)) with false in Ea; [exact Ea|].
    symmetry. zcases.
  - intros H. apply load_int_bytes_of_ints; [exact Hidx|].
    intros a Ha. rewrite Hbuf. unfold partial_buffer.
    destruct ((0 <=? a) && (a <? r_offset st)) eqn:Ea; [reflexivity|].
    apply H; [exact Ha|].
    apply andb_false_iff in Ea. rewrite Z.leb_gt, Z.ltb_ge in Ea. lia.
Qed.

(** Block [i] read from the receive buffer is the block of the product
    exactly when the bytes the buffer held before, in the part that was not
    received, are those of the child's block. *)
Lemma short_block_iff :
  (forall r c, in_rows (get_work_range N P i) r -> 0 <= c < N ->
     load_int (r_inbuf st) ((r - start) * N + c)
     = Int32.wrap (dot_product N (A g) (B g) r c))
  <-> stale_as_sent data (stack e i) (r_offset st) (expected_bytes N P i).
Proof using Hsz Hi.
  pose proof (block_sizes N P Hsz i Hi) as (E1 & E2 & E3 & E4). cbv zeta in *.
  pose proof (range_bounds N P Hsz i Hi) as (B0 & B1 & B2).
  destruct received_prefix as (Ho & _ & _).
  pose proof (range_closed N P Hsz i Hi) as Hrange.
  split.
  - intros H a Ha.
    assert (HN : 0 < N) by nia.
    set (s := row_start N P i) in *. set (f := row_start N P (i + 1)) in *.
    assert (Hq : 0 <= a / 4 < (f - s) * N).
    { split; [apply Z.div_pos; lia | apply Z.div_lt_upper_bound; lia]. }
    assert (Hr : in_rows (get_work_range N P i) (s + a / 4 / N)).
    { unfold in_rows. rewrite Hrange. cbn [fst snd]. fold s f.
      split; [pose proof (Z.div_pos (a / 4) N); lia|].
      assert (a / 4 / N < f - s); [|lia].
      apply Z.div_lt_upper_bound; lia. }
    assert (Hc : 0 <= (a / 4) mod N < N) by (apply Z.mod_pos_bound; lia).
    pose proof (proj1 (short_cell_iff _ _ Hr Hc) (H _ _ Hr Hc)) as Hcell.
    cbv zeta in Hcell.
    assert (Eidx : (s + a / 4 / N - fst (get_work_range N P i)) * N + (a / 4) mod N
                   = a / 4).
    { rewrite Hrange. cbn [fst]. fold s.
      pose proof (Z.div_mod (a / 4) N ltac:(lia)). lia. }
    rewrite Eidx in Hcell. apply Hcell; [|lia].
    pose proof (Z.div_mod a 4 ltac:(lia)).
    pose proof (Z.mod_pos_bound a 4 ltac:(lia)). lia.
  - intros H r c Hr Hc. apply (short_cell_iff r c Hr Hc).
    intros a Ha Hoa. apply H. split; [exact Hoa|].
    rewrite E2. unfold in_rows in Hr. rewrite Hrange in *. cbn [fst snd] in *. nia.
Qed.

End ShortBlock.

(** [compare_results] returns 0 exactly when [C] and [C_ref] agree on the
    whole grid. *)
Lemma compare_results_zero_iff (N : Z) (g : globals) :
  compare_results N g = 0
  <-> forall r c, 0 <= r < N -> 0 <= c < N -> C g r c = C_ref g r c.
Proof.
  destruct (compare_results_spec N g) as [(E & H)|(E & r & c & Hr & Hc & Hne)].
  - split; [intros _; exact H | intros _; exact E].
  - split; [rewrite E; discriminate|].
    intros H. contradiction Hne. now apply H.
Qed.

(** C7, as the code has it: when the parent's read loop for worker [i] stops
    short of the expected byte count, it has been left by [break] after the
    failure message for [i] was printed; the parent still goes through the
    collection step of every worker, waits for the children, prints its
    report and exits with status 0; block [i] of [C] is read from the
    receive buffer, which holds the bytes received, the beginning of the
    worker's block, followed by what the uninitialised buffer held before;
    and the block of every worker whose transfer was complete equals the
    reference.  [C_ref] is still what [multiply_reference] computed.  Block
    [i] of [C] equals the reference exactly when the bytes the buffer held
    before, from the offset reached up to the expected count, are the bytes
    of the worker's block that did not arrive.  The verdict printed is the
    one [compare_results] gives on that [C]: 0 exactly when [C] and [C_ref]
    agree on the whole grid, hence, the other transfers being complete,
    exactly when those stale bytes are the missing ones. *)
Theorem short_transfer_handling (N P : Z) (e : env) (g1 : globals) (i : Z) :
  sized N P -> setup_ok P e -> 0 <= i < P ->
  let g := multiply_reference N g1 in
  let streams := pipes_content N P e g in
  let st := received N P e g i in
  let run := run_main N P e g1 in
  let data := bytes_of_ints
                (child_compute N g (fst (get_work_range N P i))
                                   (snd (get_work_range N P i))) in
  let stale := stale_as_sent data (stack e i) (r_offset st)
                             (expected_bytes N P i) in
  r_offset st < expected_bytes N P i ->
  fst (parent_read N P e (streams i) i) = LoopBroke
  /\ (exists t, collect_trace N P e streams i
                = t ++ [EvPrint (MsgParentReadFailed i); EvClose i ReadEnd])
  /\ fst run = prologue N P e
               ++ flat_map (collect_trace N P e streams) (zrange 0 P)
               ++ report N P (snd run)
  /\ (forall r c, in_rows (get_work_range N P i) r -> 0 <= c < N ->
        C (snd run) r c
        = load_int (partial_buffer (streams i) (stack e i) (r_offset st))
                   ((r - fst (get_work_range N P i)) * N + c))
  /\ (forall j r c, 0 <= j < P ->
        quiet (fst (child N P e g j)) = true ->
        quiet (collect_trace N P e streams j) = true ->
        in_rows (get_work_range N P j) r -> 0 <= c < N ->
        C (snd run) r c = C_ref (snd run) r c)
  /\ firstn (Z.to_nat (r_offset st)) (streams i)
     = firstn (Z.to_nat (r_offset st)) data
  /\ (forall r c, in_rows (get_work_range N P i) r -> 0 <= c < N ->
        C (snd run) r c
        = load_int (partial_buffer data (stack e i) (r_offset st))
                   ((r - fst (get_work_range N P i)) * N + c))
  /\ (C_ref (snd run) = C_ref g
      /\ forall r c, 0 <= r < N -> 0 <= c < N ->
           C_ref (snd run) r c = Int32.wrap (dot_product N (A g1) (B g1) r c))
  /\ ((forall r c, in_rows (get_work_range N P i) r -> 0 <= c < N ->
         C (snd run) r c = C_ref (snd run) r c)
      <-> stale)
  /\ (compare_results N (snd run) = 0
      <-> forall r c, 0 <= r < N -> 0 <= c < N ->
            C (snd run) r c = C_ref (snd run) r c)
  /\ ((forall j, 0 <= j < P -> j <> i ->
         quiet (fst (child N P e g j)) = true
         /\ quiet (collect_trace N P e streams j) = true) ->
      (compare_results N (snd run) = 0 <-> stale))
  /\ exists t, fst run
               = t ++ [EvPrint (if compare_results N (snd run) =? 0
                                then MsgSuccess else MsgError);
                       EvExit 0].
Proof.
  intros Hsz Hok Hi g streams st run data stale Hshort.
  pose proof (run_main_ok N P e g1 Hok) as Hrun. cbv zeta in Hrun.
  fold g streams in Hrun.
  pose proof (collect_all_spec N P Hsz e streams g (prologue N P e))
    as (_ & _ & HR & Ht & Hin & _). cbv zeta in *.
  subst run. rewrite Hrun. clear Hrun.
  destruct (for_loop 0 P _ (g, prologue N P e)) as [g' t']. cbn [fst snd] in *.
  destruct (multiply_reference_spec N g1) as (HA1 & HB1 & _ & HR1).
  fold g in HA1, HB1, HR1.
  destruct (received_prefix N P Hsz e g i Hi) as (Hoff & Hbuf & Hpre).
  fold st data in Hoff, Hbuf, Hpre.
  pose proof (short_block_iff N P Hsz e g i Hi) as Hblock.
  fold st data stale in Hblock.
  (* the value of a cell of block i *)
  assert (Hcell : forall r c, in_rows (get_work_range N P i) r -> 0 <= c < N ->
            C g' r c = load_int (r_inbuf st)
                                ((r - fst (get_work_range N P i)) * N + c)).
  { intros r c Hr Hc. rewrite (Hin i r c Hi Hr Hc). unfold st, received.
    fold streams. f_equal.
    pose proof (block_sizes N P Hsz i Hi) as (E1 & E2 & E3 & E4). cbv zeta in *.
    pose proof (range_bounds N P Hsz i Hi) as (B0 & B1 & B2).
    unfold in_rows in Hr. rewrite (range_closed N P Hsz i Hi) in Hr |- *.
    cbn [fst snd] in *. apply Int32Facts.wrap_small.
    unfold Int32.in_range, Int32.min_signed, Int32.max_signed in *. nia. }
  (* the reference *)
  assert (Href : forall r c, 0 <= r < N -> 0 <= c < N ->
            C_ref g' r c = Int32.wrap (dot_product N (A g1) (B g1) r c)).
  { intros r c Hr Hc. rewrite HR, HR1.
    replace ((0 <=? r) && (r <? N) && ((0 <=? c) && (c <? N))) with true
      by (symmetry; zcases).
    reflexivity. }
  assert (Hrows : forall j r, 0 <= j < P -> in_rows (get_work_range N P j) r ->
            0 <= r < N).
  { intros j r Hj Hr. pose proof (range_bounds N P Hsz j Hj) as (B0 & B1 & B2).
    unfold in_rows in Hr. rewrite (range_closed N P Hsz j Hj) in Hr.
    cbn [fst snd] in Hr. lia. }
  (* the blocks received in full *)
  assert (Hfull : forall j r c, 0 <= j < P ->
            quiet (fst (child N P e g j)) = true ->
            quiet (collect_trace N P e streams j) = true ->
            in_rows (get_work_range N P j) r -> 0 <= c < N ->
            C g' r c = C_ref g' r c).
  { intros j r c Hj Hq1 Hq2 Hr Hc.
    rewrite (Href r c (Hrows j r Hj Hr) Hc), (Hin j r c Hj Hr Hc).
    rewrite <- HA1, <- HB1.
    apply (block_received N P Hsz e g j r c Hj Hq1 Hq2 Hr Hc). }
  (* block i *)
  assert (Hblock' : (forall r c, in_rows (get_work_range N P i) r -> 0 <= c < N ->
                       C g' r c = C_ref g' r c) <-> stale).
  { rewrite <- Hblock. split; intros H r c Hr Hc.
    - rewrite <- (Hcell r c Hr Hc), HA1, HB1, <- (Href r c (Hrows i r Hi Hr) Hc).
      now apply H.
    - rewrite (Hcell r c Hr Hc), (Href r c (Hrows i r Hi Hr) Hc), <- HA1, <- HB1.
      now apply H. }
  pose proof (parent_read_spec N P Hsz e (streams i) i Hi) as Hread.
  unfold collect_trace at 1.
  assert (Est : st = snd (parent_read N P e (streams i) i)) by reflexivity.
  destruct (parent_read N P e (streams i) i) as [ex rs] eqn:Epr.
  cbn [fst snd] in *. rewrite <- Est in Hread.
  destruct Hread as (Hinv & [(_ & Ho & _)|(Eex & _ & t & Et)]); [lia|].
  split; [exact Eex | split; [|split; [|split; [|split; [exact Hfull|]]]]].
  - exists t. rewrite <- Est, Et, <- app_assoc. reflexivity.
  - rewrite Ht, <- app_assoc. reflexivity.
  - intros r c Hr Hc. rewrite (Hcell r c Hr Hc).
    apply load_int_ext. intros a.
    destruct Hinv as (_ & _ & _ & Hb). rewrite Hb. reflexivity.
  - split; [exact Hpre | split; [|split; [split; [exact HR | exact Href]|
      split; [exact Hblock' | split; [apply compare_results_zero_iff | split]]]]].
    + intros r c Hr Hc. rewrite (Hcell r c Hr Hc). apply load_int_ext. exact Hbuf.
    + intros Hothers. rewrite compare_results_zero_iff, <- Hblock'. split.
      * intros H r c Hr Hc. apply H; [exact (Hrows i r Hi Hr) | exact Hc].
      * intros H r c Hr Hc.
        destruct (sized_in_range N P Hsz) as (S1 & S2 & S3).
        pose proof Hsz as (H0 & _).
        destruct (row_owner N P S1 S2 S3 r (Z.to_nat P) H0) as (j & Hj & Hrow).
        { lia. }
        { rewrite Z2Nat.id by lia. destruct (row_start_ends N P S1 S2 S3 H0). lia. }
        rewrite Z2Nat.id in Hj by lia.
        assert (Hjr : in_rows (get_work_range N P j) r).
        { unfold in_rows. rewrite (range_closed N P Hsz j Hj). exact Hrow. }
        destruct (Z.eq_dec j i) as [->|Hne]; [now apply H|].
        destruct (Hothers j Hj Hne) as (Q1 & Q2).
        exact (Hfull j r c Hj Q1 Q2 Hjr Hc).
    + unfold report. eexists. rewrite Ht, !app_assoc.
      match goal with |- _ ++ [?a; ?b; ?c; ?d; ?x; ?y] = _ =>
        change [a; b; c; d; x; y] with ([a; b; c; d] ++ [x; y]) end.
      rewrite app_assoc. reflexivity.
Qed.

Lemma short_env_setup_ok : setup_ok Build.P short_env.
Proof. intros j Hj. simpl. lia. Defined.

Lemma short_transfer_handling_witness :
  fst (parent_read Build.N Build.P short_env
         (pipes_content Build.N Build.P short_env
            (multiply_reference Build.N (init_matrices Build.N globals0)) 3) 3)
  = LoopBroke.
Proof.
  refine (proj1 (short_transfer_handling Build.N Build.P short_env
                   (init_matrices Build.N globals0) 3
                   build_sized short_env_setup_ok _ _)).
  - unfold Build.P. lia.
  - vm_compute. reflexivity.
Defined.

(** C7, counterexample: child 3 delivers 79 of its 80 bytes; the parent's
    read loop stops short and reports it; the missing byte, the high byte
    of a small number, is taken from a buffer that held zero, so [C] equals
    [C_ref] and the final verification reports success. *)
Lemma short_transfer_passes_verification :
  expected_bytes Build.N Build.P 3 = 80
  /\ r_offset (received Build.N Build.P short_env
                 (multiply_reference Build.N (init_matrices Build.N globals0)) 3)
     = 79
  /\ collect_trace Build.N Build.P short_env
       (pipes_content Build.N Build.P short_env
          (multiply_reference Build.N (init_matrices Build.N globals0))) 3
     = [EvClose 3 WriteEnd; EvRead 3 80 79; EvRead 3 1 0;
        EvPrint (MsgParentReadFailed 3); EvClose 3 ReadEnd]
  /\ compare_results Build.N (snd (main Build.N Build.P short_env)) = 0
  /\ firstn 2 (rev (fst (main Build.N Build.P short_env)))
     = [EvExit 0; EvPrint MsgSuccess].
Proof. vm_compute. repeat split; reflexivity. Qed.

(** * Further properties of the code *)

(** ** The partitioner *)

(** X1: the ranges follow one another in worker order: the range of worker
    [i] ends where that of worker [i + 1] starts; and for [N >= 0] the
    first range starts at row 0, the last ends at row [N], and the starts
    do not decrease. *)
Theorem ranges_consecutive (N P i : Z) :
  Int32.in_range N -> Int32.in_range P -> 0 <= i -> i + 1 < P ->
  snd (get_work_range N P i) = fst (get_work_range N P (i + 1))
  /\ (0 <= N -> fst (get_work_range N P 0) = 0
               /\ snd (get_work_range N P (P - 1)) = N
               /\ fst (get_work_range N P i) <= fst (get_work_range N P (i + 1))).
Proof.
  intros HN HP Hi Hi1.
  assert (Ppos : 0 < P) by lia.
  rewrite (get_work_range_closed N P HN HP Ppos i) by lia.
  rewrite (get_work_range_closed N P HN HP Ppos (i + 1)) by lia.
  cbn [fst snd]. split; [reflexivity|]. intros H0.
  rewrite (get_work_range_closed N P HN HP Ppos 0) by lia.
  rewrite (get_work_range_closed N P HN HP Ppos (P - 1)) by lia.
  cbn [fst snd]. replace (P - 1 + 1) with P by lia.
  destruct (row_start_ends N P HN HP Ppos H0) as (E0 & EP).
  repeat split; try assumption.
  apply (row_start_mono N P HN HP Ppos); lia.
Qed.

Lemma ranges_consecutive_witness :
  snd (get_work_range 10 4 1) = fst (get_work_range 10 4 (1 + 1)).
Proof.
  refine (proj1 (ranges_consecutive 10 4 1 _ _ _ _));
    unfold Int32.in_range, Int32.min_signed, Int32.max_signed; lia.
Defined.

(** X2: with more workers than rows ([0 <= N < P]), worker [i] gets row [i]
    alone when [i < N] and the empty range at [N] otherwise. *)
Theorem more_workers_than_rows (N P i : Z) :
  Int32.in_range P -> 0 <= N < P -> 0 <= i < P ->
  get_work_range N P i = (if i <? N then (i, i + 1) else (N, N)).
Proof.
  intros HP HN Hi.
  assert (HNr : Int32.in_range N)
    by (unfold Int32.in_range, Int32.min_signed, Int32.max_signed in *; lia).
  rewrite (get_work_range_closed N P HNr HP) by lia.
  unfold row_start. rewrite Z.quot_small, Z.rem_small by lia.
  destruct (Z.ltb_spec i N); f_equal; lia.
Qed.

Lemma more_workers_than_rows_witness :
  get_work_range 2 4 3 = (if 3 <? 2 then (3, 3 + 1) else (2, 2)).
Proof.
  apply (more_workers_than_rows 2 4 3);
    unfold Int32.in_range, Int32.min_signed, Int32.max_signed; lia.
Defined.

(** X3: when [P] divides [N], every worker gets [N / P] rows, worker [i]
    starting at row [i * (N / P)]; a single worker gets all the rows. *)
Theorem even_division (N P i : Z) :
  Int32.in_range N -> Int32.in_range P -> 0 < P -> 0 <= i < P ->
  Z.rem N P = 0 ->
  get_work_range N P i = (i * Z.quot N P, (i + 1) * Z.quot N P)
  /\ (P = 1 -> get_work_range N P i = (0, N)).
Proof.
  intros HN HP Ppos Hi Hrem.
  rewrite (get_work_range_closed N P HN HP Ppos i Hi).
  unfold row_start. rewrite Hrem.
  assert (E : Z.min i 0 = 0 /\ Z.min (i + 1) 0 = 0) by lia.
  destruct E as (-> & ->). rewrite !Z.add_0_r. split; [reflexivity|].
  intros ->. assert (i = 0) by lia. subst i.
  rewrite Z.quot_1_r. f_equal. lia.
Qed.

Lemma even_division_witness :
  get_work_range 12 4 2 = (2 * Z.quot 12 4, (2 + 1) * Z.quot 12 4).
Proof.
  refine (proj1 (even_division 12 4 2 _ _ _ _ _));
    unfold Int32.in_range, Int32.min_signed, Int32.max_signed;
    try reflexivity; lia.
Defined.

(** ** The kernels and the initial matrices *)

Lemma zrange_app (a b c : Z) : a <= b -> b <= c ->
  zrange a b ++ zrange b c = zrange a c.
Proof.
  intros Hab Hbc.
  assert (G : forall n : nat, zrange a b ++ zrange b (b + Z.of_nat n)
                              = zrange a (b + Z.of_nat n)).
  { induction n as [|n IH].
    - rewrite Z.add_0_r, (zrange_empty b b), app_nil_r by lia. reflexivity.
    - replace (b + Z.of_nat (S n)) with (b + Z.of_nat n + 1) by lia.
      rewrite !zrange_snoc by lia. now rewrite app_assoc, IH. }
  specialize (G (Z.to_nat (c - b))).
  now replace (b + Z.of_nat (Z.to_nat (c - b))) with c in G by lia.
Qed.

(** X4: the blocks computed by the workers, put one after the other in
    worker order, are the whole product in row-major order: the
    concatenation is what one worker computes for the range from 0 to [N],
    it has [N * N] entries, and its entry [r * N + c] is [C_ref[r][c]]. *)
Theorem blocks_concatenate (N P : Z) (g : globals) (r c : Z) :
  0 <= N -> Int32.in_range N -> Int32.in_range P -> 0 < P ->
  0 <= r < N -> 0 <= c < N ->
  let whole :=
    flat_map (fun i => child_compute N g (fst (get_work_range N P i))
                                         (snd (get_work_range N P i)))
             (zrange 0 P) in
  whole = child_compute N g 0 N
  /\ Z.of_nat (length whole) = N * N
  /\ nth (Z.to_nat (r * N + c)) whole 0 = C_ref (multiply_reference N g) r c.
Proof.
  intros H0 HN HP Ppos Hr Hc whole.
  assert (E : whole = child_compute N g 0 N).
  { subst whole.
    assert (G : forall k : nat, Z.of_nat k <= P ->
              flat_map (fun i => child_compute N g (fst (get_work_range N P i))
                                                   (snd (get_work_range N P i)))
                       (zrange 0 (Z.of_nat k))
              = child_compute N g 0 (row_start N P (Z.of_nat k))).
    { induction k as [|k IH]; intros Hk.
      - change (Z.of_nat 0) with 0.
        destruct (row_start_ends N P HN HP Ppos H0) as (-> & _).
        rewrite child_compute_eq, !(zrange_empty 0 0) by lia. reflexivity.
      - replace (Z.of_nat (S k)) with (Z.of_nat k + 1) by lia.
        rewrite zrange_snoc, flat_map_app, IH by lia. simpl.
        rewrite app_nil_r.
        rewrite (get_work_range_closed N P HN HP Ppos (Z.of_nat k)) by lia.
        cbn [fst snd]. rewrite !child_compute_eq, <- flat_map_app.
        rewrite zrange_app; [reflexivity | |].
        + pose proof (row_start_mono N P HN HP Ppos 0 (Z.of_nat k) H0) as M.
          destruct (row_start_ends N P HN HP Ppos H0) as (E0 & _). lia.
        + apply (row_start_mono N P HN HP Ppos); lia. }
    specialize (G (Z.to_nat P)). rewrite Z2Nat.id in G by lia.
    rewrite G by lia.
    destruct (row_start_ends N P HN HP Ppos H0) as (_ & ->). reflexivity. }
  split; [exact E | split].
  - rewrite E, child_compute_length. nia.
  - rewrite E.
    replace (r * N + c) with ((r - 0) * N + c) by lia.
    rewrite child_compute_nth by lia.
    destruct (multiply_reference_spec N g) as (_ & _ & _ & H). rewrite H.
    replace ((0 <=? r) && (r <? N) && ((0 <=? c) && (c <? N))) with true
      by (symmetry; zcases).
    reflexivity.
Qed.

Lemma blocks_concatenate_witness :
  nth (Z.to_nat (4 * Build.N + 7))
      (flat_map (fun i => child_compute Build.N (init_matrices Build.N globals0)
                            (fst (get_work_range Build.N Build.P i))
                            (snd (get_work_range Build.N Build.P i)))
                (zrange 0 Build.P)) 0
  = C_ref (multiply_reference Build.N (init_matrices Build.N globals0)) 4 7.
Proof.
  refine (proj2 (proj2 (blocks_concatenate Build.N Build.P
                          (init_matrices Build.N globals0) 4 7 _ _ _ _ _ _)));
    unfold Build.N, Build.P, Int32.in_range, Int32.min_signed,
           Int32.max_signed; lia.
Defined.

(** X5: when [i + j + 1] does not overflow, [init_matrices] sets
    [A[i][j] = i + j + 1] and [B[i][j]] to 2 on the diagonal and 1 elsewhere
    for all [i], [j] below [N]; both matrices are symmetric; nothing is
    written outside the [N] by [N] grid, nor to [C] and [C_ref]. *)
Theorem init_matrices_post (N : Z) (g : globals) (i j : Z) :
  0 <= N -> 2 * N <= Int32.max_signed ->
  let g' := init_matrices N g in
  (0 <= i < N -> 0 <= j < N ->
     A g' i j = i + j + 1 /\ B g' i j = (if i =? j then 2 else 1)
     /\ A g' i j = A g' j i /\ B g' i j = B g' j i)
  /\ (~ (0 <= i < N /\ 0 <= j < N) -> A g' i j = A g i j /\ B g' i j = B g i j)
  /\ C g' = C g /\ C_ref g' = C_ref g.
Proof.
  intros H0 H2 g'.
  destruct (init_matrices_spec N g) as (HC & HR & HAB). fold g' in HC, HR, HAB.
  assert (Hadd : forall x y, 0 <= x < N -> 0 <= y < N ->
            Int32.add (Int32.add x y) 1 = x + y + 1).
  { intros x y Hx Hy. int32_exact.
    unfold Int32.in_range, Int32.min_signed, Int32.max_signed in *. lia. }
  split; [|split; [|split; assumption]].
  - intros Hi Hj.
    destruct (HAB i j) as (EA & EB). destruct (HAB j i) as (EA' & EB').
    replace ((0 <=? i) && (i <? N) && ((0 <=? j) && (j <? N))) with true in *
      by (symmetry; zcases).
    replace ((0 <=? j) && (j <? N) && ((0 <=? i) && (i <? N))) with true in *
      by (symmetry; zcases).
    rewrite EA, EB, EA', EB', !Hadd by assumption.
    repeat split; try lia. rewrite (Z.eqb_sym j i). reflexivity.
  - intros Hout. destruct (HAB i j) as (EA & EB).
    replace ((0 <=? i) && (i <? N) && ((0 <=? j) && (j <? N))) with false in *
      by (symmetry; zcases).
    split; assumption.
Qed.

Lemma init_matrices_post_witness :
  C (init_matrices Build.N globals0) = C globals0.
Proof.
  refine (proj1 (proj2 (proj2 (init_matrices_post Build.N globals0 0 0 _ _))));
    unfold Build.N, Int32.max_signed; lia.
Defined.

(** X6: [multiply_reference] changes [C_ref] only, and only on the grid;
    run a second time it gives the same [C_ref]. *)
Theorem reference_idempotent (N : Z) (g : globals) (i j : Z) :
  let g1 := multiply_reference N g in
  let g2 := multiply_reference N g1 in
  C_ref g2 i j = C_ref g1 i j
  /\ A g1 = A g /\ B g1 = B g /\ C g1 = C g
  /\ (~ (0 <= i < N /\ 0 <= j < N) -> C_ref g1 i j = C_ref g i j).
Proof.
  intros g1 g2.
  destruct (multiply_reference_spec N g) as (HA & HB & HC & HR).
  destruct (multiply_reference_spec N g1) as (_ & _ & _ & HR2).
  fold g1 in HA, HB, HC, HR. fold g2 in HR2.
  split; [|split; [|split; [|split]]]; try assumption.
  - rewrite HR2, HA, HB, HR.
    destruct ((0 <=? i) && (i <? N) && ((0 <=? j) && (j <? N))); reflexivity.
  - intros Hout. rewrite HR.
    replace ((0 <=? i) && (i <? N) && ((0 <=? j) && (j <? N))) with false
      by (symmetry; zcases).
    reflexivity.
Qed.

(** X7: with the matrices of [init_matrices], the entry of the product in
    row [r] and column [c] is [N * r + N * (N + 1) / 2 + (r + c + 1)] (the sum
    of row [r] of [A] plus [A[r][c]]), and [multiply_reference] stores it,
    reduced to 32 bits, in [C_ref[r][c]]. *)
Theorem reference_closed_form (N : Z) (g : globals) (r c : Z) :
  0 <= N -> 2 * N <= Int32.max_signed -> 0 <= r < N -> 0 <= c < N ->
  let g' := multiply_reference N (init_matrices N g) in
  dot_product N (A g') (B g') r c = N * r + N * (N + 1) / 2 + (r + c + 1)
  /\ C_ref g' r c = Int32.wrap (N * r + N * (N + 1) / 2 + (r + c + 1)).
Proof.
  intros H0 H2 Hr Hc g'.
  destruct (multiply_reference_spec N (init_matrices N g)) as (HA & HB & _ & HR).
  fold g' in HA, HB, HR.
  assert (Hinit : forall i j, 0 <= i < N -> 0 <= j < N ->
            A (init_matrices N g) i j = i + j + 1
            /\ B (init_matrices N g) i j = (if i =? j then 2 else 1)).
  { intros i j Hi Hj.
    destruct (init_matrices_spec N g) as (_ & _ & HAB).
    destruct (HAB i j) as (EA & EB). rewrite EA, EB.
    replace ((0 <=? i) && (i <? N) && ((0 <=? j) && (j <? N))) with true
      by (symmetry; zcases).
    split; [|reflexivity]. int32_exact.
    unfold Int32.in_range, Int32.min_signed, Int32.max_signed in *. lia. }
  assert (E : dot_product N (A g') (B g') r c
              = N * r + N * (N + 1) / 2 + (r + c + 1)).
  { rewrite HA, HB. unfold dot_product.
    rewrite (sum_n_ext _ (fun k => (r + k + 1) * (if k =? c then 2 else 1))).
    - rewrite sum_n_marked_column, sum_n_arith by lia.
      rewrite Z2Nat.id by lia.
      replace (c <? N) with true by (symmetry; apply Z.ltb_lt; lia). lia.
    - intros k Hk. rewrite Z2Nat.id in Hk by lia.
      destruct (Hinit r k Hr Hk) as (-> & _).
      destruct (Hinit k c Hk Hc) as (_ & ->). reflexivity. }
  split; [exact E|].
  rewrite HR.
  replace ((0 <=? r) && (r <? N) && ((0 <=? c) && (c <? N))) with true
    by (symmetry; zcases).
  rewrite <- HA, <- HB, E. reflexivity.
Qed.

Lemma reference_closed_form_witness :
  C_ref (multiply_reference 3 (init_matrices 3 globals0)) 2 1
  = Int32.wrap (3 * 2 + 3 * (3 + 1) / 2 + (2 + 1 + 1)).
Proof.
  refine (proj2 (reference_closed_form 3 globals0 2 1 _ _ _ _));
    unfold Int32.max_signed; lia.
Defined.

(** X8: when column [c] of [B] is the column of the identity matrix,
    [multiply_reference] leaves in column [c] of [C_ref] the column [c] of
    [A]. *)
Theorem multiply_by_identity_column (N : Z) (g : globals) (r c : Z) :
  0 <= r < N -> 0 <= c < N ->
  (forall k, 0 <= k < N -> B g k c = (if k =? c then 1 else 0)) ->
  C_ref (multiply_reference N g) r c = Int32.wrap (A g r c)
  /\ (Int32.in_range (A g r c) -> C_ref (multiply_reference N g) r c = A g r c).
Proof.
  intros Hr Hc HB.
  assert (E : C_ref (multiply_reference N g) r c = Int32.wrap (A g r c)).
  { destruct (multiply_reference_spec N g) as (_ & _ & _ & HR). rewrite HR.
    replace ((0 <=? r) && (r <? N) && ((0 <=? c) && (c <? N))) with true
      by (symmetry; zcases).
    f_equal. unfold dot_product.
    rewrite (sum_n_ext _ (fun k => A g r k * (if k =? c then 1 else 0))).
    - rewrite sum_n_marked_column by lia. rewrite Z2Nat.id by lia.
      replace (c <? N) with true by (symmetry; apply Z.ltb_lt; lia). lia.
    - intros k Hk. rewrite Z2Nat.id in Hk by lia. now rewrite HB. }
  split; [exact E|]. intros Hin. rewrite E. now apply Int32Facts.wrap_small.
Qed.

Lemma multiply_by_identity_column_witness :
  C_ref (multiply_reference 2
           (mkGlobals (fun i j => i + 2 * j)
                      (fun i j => if i =? j then 1 else 0)
                      zero_matrix zero_matrix)) 1 0
  = Int32.wrap (1 + 2 * 0).
Proof.
  refine (proj1 (multiply_by_identity_column 2
                   (mkGlobals (fun i j => i + 2 * j)
                              (fun i j => if i =? j then 1 else 0)
                              zero_matrix zero_matrix) 1 0 _ _ _)); try lia.
  intros k Hk. reflexivity.
Defined.

(** ** Whole runs *)

(** X9: for all sizes [N] and [P] without overflow (also [P = 1] and
    [P > N]), in every run that reports no failure [C] equals [C_ref] at
    every cell, both hold the product, [compare_results] returns 0 and the
    program prints the success message and exits with status 0. *)
Theorem distributed_run_any_size (N P : Z) (e : env) (g1 : globals) (r c : Z) :
  sized N P ->
  quiet (fst (run_main N P e g1)) = true ->
  (forall i, 0 <= i < P ->
     quiet (fst (child N P e (multiply_reference N g1) i)) = true) ->
  0 <= r < N -> 0 <= c < N ->
  C (snd (run_main N P e g1)) r c = C_ref (snd (run_main N P e g1)) r c
  /\ C (snd (run_main N P e g1)) r c
     = Int32.wrap (dot_product N (A g1) (B g1) r c)
  /\ compare_results N (snd (run_main N P e g1)) = 0
  /\ exists t, fst (run_main N P e g1) = t ++ [EvPrint MsgSuccess; EvExit 0].
Proof.
  intros Hsz Hq Hch Hr Hc.
  destruct (run_main_assembles N P Hsz e g1 Hq Hch)
    as (_ & _ & Hcells & Hcmp & Ht).
  destruct (Hcells r c Hr Hc) as (EC & ER).
  split; [exact (eq_trans EC (eq_sym ER)) | split; [exact EC | split]].
  - exact Hcmp.
  - rewrite Ht. eexists.
    rewrite !app_assoc.
    match goal with |- _ ++ [?a; ?b; ?c; ?d; ?x; ?y] = _ =>
      change [a; b; c; d; x; y] with ([a; b; c; d] ++ [x; y]) end.
    rewrite app_assoc. reflexivity.
Qed.

Lemma sized_3_5 : sized 3 5.
Proof.
  unfold sized, Int32.in_range, Int32.min_signed, Int32.max_signed. lia.
Defined.

Lemma distributed_run_any_size_witness :
  C (snd (run_main 3 5 ideal_env (init_matrices 3 globals0))) 2 1
  = C_ref (snd (run_main 3 5 ideal_env (init_matrices 3 globals0))) 2 1.
Proof.
  refine (proj1 (distributed_run_any_size 3 5 ideal_env
                   (init_matrices 3 globals0) 2 1 sized_3_5 _ _ _ _)).
  - vm_compute. reflexivity.
  - intros i Hi.
    assert (H : i = 0 \/ i = 1 \/ i = 2 \/ i = 3 \/ i = 4) by lia.
    destruct H as [->|[->|[->|[->| ->]]]]; vm_compute; reflexivity.
  - lia.
  - lia.
Defined.

Lemma zrange_split (lo i hi : Z) : lo <= i < hi ->
  zrange lo hi = zrange lo i ++ i :: zrange (i + 1) hi.
Proof.
  intros H. rewrite <- (zrange_app lo (i + 1) hi) by lia.
  rewrite zrange_snoc by lia. now rewrite <- app_assoc.
Qed.

Lemma setup_pipes_first_failure (e : env) (l1 l2 : list Z) (i : Z) :
  (forall j, In j l1 -> 0 <= pipe_ret e j) -> pipe_ret e i < 0 ->
  setup_pipes e (l1 ++ i :: l2)
  = (map (fun j => EvPipe j (pipe_ret e j)) l1
     ++ [EvPipe i (pipe_ret e i); EvPrint (MsgPipeFailed i); EvExit 1], false).
Proof.
  intros Hok Hf. induction l1 as [|j l1 IH]; simpl.
  - replace (pipe_ret e i <? 0) with true by (symmetry; apply Z.ltb_lt; lia).
    reflexivity.
  - replace (pipe_ret e j <? 0) with false
      by (symmetry; apply Z.ltb_ge; apply Hok; now left).
    rewrite IH by (intros k Hk; apply Hok; now right). reflexivity.
Qed.

Lemma spawn_first_failure (e : env) (l1 l2 : list Z) (i : Z) :
  (forall j, In j l1 -> 0 <= fork_ret e j) -> fork_ret e i < 0 ->
  spawn e (l1 ++ i :: l2)
  = (map (fun j => EvFork j (fork_ret e j)) l1
     ++ [EvFork i (fork_ret e i); EvPrint (MsgForkFailed i); EvExit 1], false).
Proof.
  intros Hok Hf. induction l1 as [|j l1 IH]; simpl.
  - replace (fork_ret e i <? 0) with true by (symmetry; apply Z.ltb_lt; lia).
    reflexivity.
  - replace (fork_ret e j <? 0) with false
      by (symmetry; apply Z.ltb_ge; apply Hok; now left).
    rewrite IH by (intros k Hk; apply Hok; now right). reflexivity.
Qed.

(** X10: when [pipe] fails for child [i], the earlier calls having
    succeeded, the parent prints the message for [i] and exits with status
    1: it makes no further [pipe], no [fork], [read], [close] or [wait], and
    [C] is left untouched. *)
Theorem pipe_failure_aborts (N P : Z) (e : env) (g1 : globals) (i : Z) :
  0 <= i < P ->
  (forall j, 0 <= j < i -> 0 <= pipe_ret e j) -> pipe_ret e i < 0 ->
  run_main N P e g1
  = ([EvPrint (MsgBanner N N P)]
     ++ map (fun j => EvPipe j (pipe_ret e j)) (zrange 0 i)
     ++ [EvPipe i (pipe_ret e i); EvPrint (MsgPipeFailed i); EvExit 1],
     multiply_reference N g1).
Proof.
  intros Hi Hok Hf. unfold run_main.
  rewrite (zrange_split 0 i P) by lia.
  rewrite setup_pipes_first_failure;
    [reflexivity | intros j Hj; apply Hok; apply in_zrange in Hj; lia | exact Hf].
Qed.

Lemma pipe_failure_aborts_witness :
  run_main Build.N Build.P pipe_fault_env globals0
  = ([EvPrint (MsgBanner Build.N Build.N Build.P)]
     ++ map (fun j => EvPipe j (pipe_ret pipe_fault_env j)) (zrange 0 2)
     ++ [EvPipe 2 (pipe_ret pipe_fault_env 2); EvPrint (MsgPipeFailed 2);
         EvExit 1],
     multiply_reference Build.N globals0).
Proof.
  apply (pipe_failure_aborts Build.N Build.P pipe_fault_env globals0 2).
  - unfold Build.P. lia.
  - intros j Hj. simpl. destruct (Z.eqb_spec j 2); lia.
  - simpl. lia.
Defined.

(** X11: when [fork] fails for child [i], all pipes and the earlier forks
    having succeeded, the parent prints the message for [i] and exits with
    status 1: it does not read from, close or wait for the children it has
    already forked. *)
Theorem fork_failure_aborts (N P : Z) (e : env) (g1 : globals) (i : Z) :
  0 <= i < P ->
  (forall j, 0 <= j < P -> 0 <= pipe_ret e j) ->
  (forall j, 0 <= j < i -> 0 <= fork_ret e j) -> fork_ret e i < 0 ->
  run_main N P e g1
  = ([EvPrint (MsgBanner N N P)]
     ++ map (fun j => EvPipe j (pipe_ret e j)) (zrange 0 P)
     ++ map (fun j => EvFork j (fork_ret e j)) (zrange 0 i)
     ++ [EvFork i (fork_ret e i); EvPrint (MsgForkFailed i); EvExit 1],
     multiply_reference N g1).
Proof.
  intros Hi Hpipes Hok Hf. unfold run_main.
  rewrite setup_pipes_ok by (intros j Hj; apply Hpipes; now apply in_zrange).
  cbn [negb].
  replace (spawn e (zrange 0 P))
    with (spawn e (zrange 0 i ++ i :: zrange (i + 1) P))
    by (rewrite <- zrange_split by lia; reflexivity).
  rewrite spawn_first_failure;
    [reflexivity | intros j Hj; apply Hok; apply in_zrange in Hj; lia | exact Hf].
Qed.

Lemma fork_failure_aborts_witness :
  run_main Build.N Build.P fork_fault_env globals0
  = ([EvPrint (MsgBanner Build.N Build.N Build.P)]
     ++ map (fun j => EvPipe j (pipe_ret fork_fault_env j)) (zrange 0 Build.P)
     ++ map (fun j => EvFork j (fork_ret fork_fault_env j)) (zrange 0 1)
     ++ [EvFork 1 (fork_ret fork_fault_env 1); EvPrint (MsgForkFailed 1);
         EvExit 1],
     multiply_reference Build.N globals0).
Proof.
  apply (fork_failure_aborts Build.N Build.P fork_fault_env globals0 1).
  - unfold Build.P. lia.
  - intros j Hj. simpl. lia.
  - intros j Hj. simpl. destruct (Z.eqb_spec j 1); lia.
  - simpl. lia.
Defined.

Lemma waits_app (t1 t2 : list event) : waits (t1 ++ t2) = (waits t1 + waits t2)%nat.
Proof. unfold waits. now rewrite filter_app, length_app. Qed.

Lemma waits_map_none {X : Type} (f : X -> event) (l : list X) :
  (forall x, f x <> EvWait) -> waits (map f l) = 0%nat.
Proof.
  intros Hf. induction l as [|x l IH]; [reflexivity|].
  change (map f (x :: l)) with ([f x] ++ map f l). rewrite waits_app, IH.
  unfold waits. simpl. specialize (Hf x). destruct (f x); try reflexivity.
  now contradiction Hf.
Qed.

(** The read loop adds to the trace, and adds no [wait]. *)
Lemma read_loop_trace (fuel : nat) (i bytes : Z) (st : rstate) :
  exists t, r_trace (snd (read_loop fuel i bytes st)) = r_trace st ++ t
            /\ waits t = 0%nat.
Proof.
  revert st. induction fuel as [|fuel IH]; intros st; cbn [read_loop].
  - destruct (r_offset st <? bytes); exists []; now rewrite app_nil_r.
  - destruct (r_offset st <? bytes); [|exists []; now rewrite app_nil_r].
    match goal with |- context [sys_read ?a ?b ?c] =>
      destruct (sys_read a b c) as [[[r data] rest] sched'] end.
    destruct (r <=? 0).
    + cbn [snd r_trace]. rewrite <- app_assoc. eexists. split; reflexivity.
    + match goal with |- context [read_loop fuel i bytes ?s] =>
        destruct (IH s) as (t & Et & Wt) end.
      rewrite Et. cbn [r_trace]. rewrite <- app_assoc. eexists.
      split; [reflexivity|].
      now rewrite waits_app, Wt.
Qed.

Lemma collect_trace_shape (N P : Z) (e : env) (streams : Z -> list byte) (i : Z) :
  exists t, collect_trace N P e streams i
            = [EvClose i WriteEnd] ++ t ++ [EvClose i ReadEnd]
            /\ waits t = 0%nat.
Proof.
  unfold collect_trace, parent_read. destruct (get_work_range N P i) as [s1 s2].
  match goal with |- context [read_loop ?f i ?b ?s] =>
    destruct (read_loop_trace f i b s) as (t & Et & Wt) end.
  rewrite Et. simpl. exists t. split; [|exact Wt]. reflexivity.
Qed.

Lemma collect_all_trace (N P : Z) (e : env) (streams : Z -> list byte)
    (g : globals) (t : list event) :
  snd (for_loop 0 P (collect_one N P e streams) (g, t))
  = t ++ flat_map (collect_trace N P e streams) (zrange 0 P).
Proof.
  unfold for_loop. generalize (zrange 0 P) as l. intros l. revert g t.
  induction l as [|i l IH]; intros g t; cbn [fold_left flat_map].
  - cbn [snd]. now rewrite app_nil_r.
  - rewrite collect_one_eq, IH, <- app_assoc. reflexivity.
Qed.

Lemma waits_all (l : list Z) : waits (map (fun _ => EvWait) l) = length l.
Proof. unfold waits. induction l; simpl; congruence. Qed.

Lemma waits_collect (N P : Z) (e : env) (streams : Z -> list byte) (l : list Z) :
  waits (flat_map (collect_trace N P e streams) l) = 0%nat.
Proof.
  induction l as [|j l IH]; [reflexivity|]. simpl. rewrite waits_app, IH.
  destruct (collect_trace_shape N P e streams j) as (t & -> & Wt).
  rewrite !waits_app, Wt. reflexivity.
Qed.

(** What the read loop adds to the trace: its [read] calls on pipe [i],
    then the failure message when it is left by [break]. *)
Lemma read_loop_reads (fuel : nat) (i bytes : Z) (st : rstate) :
  exists reads tail,
    r_trace (snd (read_loop fuel i bytes st)) = r_trace st ++ reads ++ tail
    /\ forallb (is_read i) reads = true
    /\ (tail = [] \/ tail = [EvPrint (MsgParentReadFailed i)]).
Proof.
  revert st. induction fuel as [|fuel IH]; intros st; cbn [read_loop].
  - exists [], []. destruct (r_offset st <? bytes);
      (split; [now rewrite app_nil_r | split; [reflexivity | now left]]).
  - destruct (r_offset st <? bytes).
    2:{ exists [], []. split; [now rewrite app_nil_r | split; [reflexivity | now left]]. }
    match goal with |- context [sys_read ?a ?b ?c] =>
      destruct (sys_read a b c) as [[[r data] rest] sched'] end.
    destruct (r <=? 0).
    + cbn [snd r_trace].
      exists [EvRead i (Int32.sub bytes (r_offset st)) r],
             [EvPrint (MsgParentReadFailed i)].
      split; [now rewrite <- app_assoc | split; [|now right]].
      cbn [forallb is_read]. now rewrite Z.eqb_refl.
    + match goal with |- context [read_loop fuel i bytes ?s] =>
        destruct (IH s) as (reads & tail & Et & Hr & Htail) end.
      rewrite Et. cbn [r_trace].
      exists (EvRead i (Int32.sub bytes (r_offset st)) r :: reads), tail.
      split; [now rewrite <- app_assoc | split; [|exact Htail]].
      cbn [forallb is_read]. now rewrite Z.eqb_refl, Hr.
Qed.

(** One iteration of the collection loop: [close] of the write end, the
    [read] calls, the failure message if any, [close] of the read end. *)
Lemma collect_trace_reads (N P : Z) (e : env) (streams : Z -> list byte) (i : Z) :
  exists reads tail,
    collect_trace N P e streams i
    = [EvClose i WriteEnd] ++ (reads ++ tail) ++ [EvClose i ReadEnd]
    /\ forallb (is_read i) reads = true
    /\ (tail = [] \/ tail = [EvPrint (MsgParentReadFailed i)]).
Proof.
  unfold collect_trace, parent_read. destruct (get_work_range N P i) as [s1 s2].
  match goal with |- context [read_loop ?f i ?b ?s] =>
    destruct (read_loop_reads f i b s) as (reads & tail & Et & Hr & Htail) end.
  rewrite Et. cbn [r_trace]. exists reads, tail.
  split; [|split; assumption]. now rewrite <- !app_assoc.
Qed.

Lemma existsb_on_pipe_reads (i j : Z) (l : list event) : j <> i ->
  forallb (is_read j) l = true -> existsb (on_pipe i) l = false.
Proof.
  intros Hne. induction l as [|ev l IH]; [reflexivity|].
  cbn [forallb existsb]. intros H. apply andb_true_iff in H as (H1 & H2).
  rewrite (IH H2), orb_false_r.
  destruct ev; try discriminate. cbn [is_read on_pipe] in *.
  apply Z.eqb_eq in H1. subst. now apply Z.eqb_neq.
Qed.

Lemma waits_reads (i : Z) (l : list event) :
  forallb (is_read i) l = true -> waits l = 0%nat.
Proof.
  induction l as [|ev l IH]; [reflexivity|].
  cbn [forallb]. intros H. apply andb_true_iff in H as (H1 & H2).
  change (ev :: l) with ([ev] ++ l). rewrite waits_app, (IH H2).
  destruct ev; try discriminate. reflexivity.
Qed.

(** The collection of another worker's block does not touch pipe [i]. *)
Lemma collect_trace_other (N P : Z) (e : env) (streams : Z -> list byte)
    (i j : Z) : j <> i ->
  existsb (on_pipe i) (collect_trace N P e streams j) = false.
Proof.
  intros Hne.
  destruct (collect_trace_reads N P e streams j) as (reads & tail & -> & Hr & Htail).
  rewrite !existsb_app, (existsb_on_pipe_reads i j reads Hne Hr).
  cbn [existsb on_pipe]. replace (j =? i) with false by (symmetry; now apply Z.eqb_neq).
  destruct Htail as [-> | ->]; reflexivity.
Qed.

Lemma collect_traces_other (N P : Z) (e : env) (streams : Z -> list byte)
    (i : Z) (l : list Z) : ~ In i l ->
  existsb (on_pipe i) (flat_map (collect_trace N P e streams) l) = false.
Proof.
  induction l as [|j l IH]; intros Hn; [reflexivity|].
  cbn [flat_map]. rewrite existsb_app, IH by (intros H; apply Hn; now right).
  rewrite collect_trace_other; [reflexivity|].
  intros ->. apply Hn. now left.
Qed.

Lemma existsb_map_none {X Y : Type} (p : Y -> bool) (f : X -> Y) (l : list X) :
  (forall x, p (f x) = false) -> existsb p (map f l) = false.
Proof.
  intros H. induction l as [|x l IH]; [reflexivity|].
  cbn [map existsb]. now rewrite H, IH.
Qed.

(** X12: once every [pipe] and [fork] has succeeded, whatever happens to
    the transfers the parent closes the write end of each pipe before it
    reads and the read end after: between the two [close] calls for pipe
    [i] there are only [read] calls on pipe [i], followed by the failure
    message when the loop is left by [break], and the trace has no other
    [close], [read] or [write] on pipe [i], neither before nor after.  The
    parent calls [wait] exactly [P] times, all of them after the collection,
    prints the verdict of [compare_results] and exits with status 0. *)
Theorem every_child_waited (N P : Z) (e : env) (g1 : globals) (i : Z) :
  setup_ok P e -> 0 <= i < P ->
  waits (fst (run_main N P e g1)) = Z.to_nat P
  /\ (exists t1 t2 t3,
        fst (run_main N P e g1)
        = t1 ++ [EvClose i WriteEnd] ++ t2 ++ [EvClose i ReadEnd] ++ t3
        /\ waits t1 = 0%nat /\ waits t2 = 0%nat /\ waits t3 = Z.to_nat P
        /\ existsb (on_pipe i) t1 = false
        /\ existsb (on_pipe i) t3 = false
        /\ exists reads tail,
             t2 = reads ++ tail
             /\ forallb (is_read i) reads = true
             /\ (tail = [] \/ tail = [EvPrint (MsgParentReadFailed i)]))
  /\ (exists t, fst (run_main N P e g1)
                = t ++ [EvPrint (if compare_results N (snd (run_main N P e g1)) =? 0
                                 then MsgSuccess else MsgError);
                        EvExit 0]).
Proof.
  intros Hok Hi.
  pose proof (run_main_ok N P e g1 Hok) as Hrun. cbv zeta in Hrun.
  rewrite Hrun. clear Hrun. cbn [fst snd].
  rewrite collect_all_trace.
  set (g := multiply_reference N g1).
  set (streams := pipes_content N P e g).
  set (g' := fst (for_loop 0 P (collect_one N P e streams) (g, prologue N P e))).
  assert (W1 : waits (prologue N P e) = 0%nat).
  { unfold prologue. rewrite !waits_app, !waits_map_none by discriminate.
    reflexivity. }
  assert (W3 : waits (report N P g') = Z.to_nat P).
  { unfold report. rewrite waits_app, waits_all, zrange_length.
    unfold waits. simpl. lia. }
  split; [|split].
  - rewrite !waits_app, W1, waits_collect, W3. reflexivity.
  - rewrite (zrange_split 0 i P) by lia. rewrite flat_map_app. cbn [flat_map].
    destruct (collect_trace_reads N P e streams i) as (reads & tail & -> & Hr & Htail).
    exists (prologue N P e ++ flat_map (collect_trace N P e streams) (zrange 0 i)),
           (reads ++ tail),
           (flat_map (collect_trace N P e streams) (zrange (i + 1) P)
            ++ report N P g').
    split; [rewrite <- !app_assoc; reflexivity|].
    rewrite !waits_app, W1, !waits_collect, W3, (waits_reads i reads Hr).
    split; [reflexivity | split; [|split; [lia | split; [|split]]]].
    + destruct Htail as [-> | ->]; reflexivity.
    + rewrite existsb_app, collect_traces_other
        by (rewrite in_zrange; lia).
      unfold prologue. rewrite !existsb_app, !existsb_map_none by reflexivity.
      reflexivity.
    + rewrite existsb_app, collect_traces_other
        by (rewrite in_zrange; lia).
      unfold report. rewrite existsb_app, existsb_map_none by reflexivity.
      reflexivity.
    + exists reads, tail. split; [reflexivity | split; assumption].
  - unfold report. eexists. rewrite !app_assoc.
    match goal with |- _ ++ [?a; ?b; ?c; ?d; ?x; ?y] = _ =>
      change [a; b; c; d; x; y] with ([a; b; c; d] ++ [x; y]) end.
    rewrite app_assoc. reflexivity.
Qed.

Lemma ideal_setup_ok (P : Z) : setup_ok P ideal_env.
Proof. intros j Hj. simpl. lia. Defined.

Lemma every_child_waited_witness :
  waits (fst (run_main Build.N Build.P ideal_env globals0)) = Z.to_nat Build.P.
Proof.
  refine (proj1 (every_child_waited Build.N Build.P ideal_env globals0 0
                   (ideal_setup_ok Build.P) _)).
  unfold Build.P. lia.
Defined.

(** X13: what a child leaves in its pipe is always a prefix of the bytes
    of its block of rows: the whole block when it reports no failure, fewer
    bytes than expected when it does.  The block has the expected number of
    bytes. *)
Theorem child_sends_prefix (N P : Z) (e : env) (g : globals) (i : Z) :
  sized N P -> 0 <= i < P ->
  let data := bytes_of_ints (child_compute N g (fst (get_work_range N P i))
                                               (snd (get_work_range N P i))) in
  let sent := snd (child N P e g i) in
  Z.of_nat (length data) = expected_bytes N P i
  /\ (exists k, (k <= length data)%nat /\ sent = firstn k data)
  /\ (quiet (fst (child N P e g i)) = true -> sent = data)
  /\ (quiet (fst (child N P e g i)) = false ->
      Z.of_nat (length sent) < expected_bytes N P i).
Proof.
  intros Hsz Hi data sent.
  pose proof (block_sizes N P Hsz i Hi) as (E1 & E2 & E3 & E4). cbv zeta in *.
  pose proof (range_bounds N P Hsz i Hi) as (B0 & B1 & B2).
  pose proof (child_send_spec N P Hsz e g i Hi) as H. cbv zeta in H.
  assert (Hlen : Z.of_nat (length data) = expected_bytes N P i).
  { subst data. rewrite (range_closed N P Hsz i Hi). cbn [fst snd].
    rewrite bytes_of_ints_length, child_compute_length, E2. nia. }
  subst sent data. unfold child. rewrite (range_closed N P Hsz i Hi) in *.
  cbn [fst snd] in *.
  destruct (child_send N P e g i) as [ex st]. cbn [fst snd].
  destruct H as ((Hw & Hp) & Hres).
  split; [exact Hlen | split; [|split]].
  - exists (Z.to_nat (w_written st)). split; [lia | exact Hp].
  - intros Hq. destruct Hres as [(_ & Hd & _)|(_ & _ & Hf)]; [exact Hd|].
    rewrite quiet_app, Hf in Hq. discriminate.
  - intros Hq. destruct Hres as [(_ & _ & Ht)|(_ & Hlt & _)].
    + rewrite quiet_app, Ht in Hq. discriminate.
    + rewrite Hp, length_firstn. lia.
Qed.

Lemma child_sends_prefix_witness :
  Z.of_nat (length (snd (child Build.N Build.P short_env
                           (init_matrices Build.N globals0) 3)))
  < expected_bytes Build.N Build.P 3.
Proof.
  refine (proj2 (proj2 (proj2 (child_sends_prefix Build.N Build.P short_env
                    (init_matrices Build.N globals0) 3 build_sized _))) _).
  - unfold Build.P. lia.
  - vm_compute. reflexivity.
Defined.

(** X14: whatever the pipe holds and whatever [read] returns, the parent
    takes at most the expected number of bytes from the pipe, in order,
    stores them at the front of [inbuf] and writes nothing outside
    [inbuf]; what it has not taken stays in the pipe; when it reports no
    failure it has taken exactly the expected number. *)
Theorem parent_read_bounded (N P : Z) (e : env) (stream : list byte)
    (i a : Z) :
  sized N P -> 0 <= i < P ->
  let st := snd (parent_read N P e stream i) in
  0 <= r_offset st <= expected_bytes N P i
  /\ r_offset st <= Z.of_nat (length stream)
  /\ r_stream st = skipn (Z.to_nat (r_offset st)) stream
  /\ r_inbuf st a = partial_buffer stream (stack e i) (r_offset st) a
  /\ (~ (0 <= a < expected_bytes N P i) -> r_inbuf st a = stack e i a)
  /\ (quiet (r_trace st) = true -> r_offset st = expected_bytes N P i).
Proof.
  intros Hsz Hi st.
  pose proof (block_sizes N P Hsz i Hi) as (E1 & E2 & E3 & E4). cbv zeta in *.
  pose proof (parent_read_spec N P Hsz e stream i Hi) as H.
  subst st. destruct (parent_read N P e stream i) as [ex st]. cbn [snd].
  destruct H as ((Ho & Hl & Hs & Hb) & Hres).
  assert (Hoff : 0 <= r_offset st <= expected_bytes N P i) by lia.
  split; [exact Hoff | split; [exact Hl | split; [exact Hs | split; [|split]]]].
  - rewrite Hb. reflexivity.
  - intros Hout. rewrite Hb.
    replace ((0 <=? a) && (a <? r_offset st)) with false; [reflexivity|].
    symmetry. zcases.
  - intros Hq. destruct Hres as [(_ & Hd & _)|(_ & _ & t & Ht)]; [exact Hd|].
    rewrite Ht in Hq. rewrite quiet_snoc_failure in Hq; [discriminate | reflexivity].
Qed.

Lemma parent_read_bounded_witness :
  r_offset (snd (parent_read Build.N Build.P ideal_env
                   (repeat Byte.x2a 500) 2))
  <= Z.of_nat (length (repeat Byte.x2a 500)).
Proof.
  refine (proj1 (proj2 (parent_read_bounded Build.N Build.P ideal_env
                          (repeat Byte.x2a 500) 2 0 build_sized _))).
  unfold Build.P. lia.
Defined.

(** ** Data on the way, and the report *)

(** X15: an [int] array written out as bytes and read back as [int]s gives
    the same values: four bytes per element, and element [idx] read from
    the bytes is the element [idx] of the array. *)
Theorem int_array_round_trip (l : list Z) (idx : Z) :
  0 <= idx < Z.of_nat (length l) ->
  let buf : buffer := fun a => nth (Z.to_nat a) (bytes_of_ints l) Byte.x00 in
  length (bytes_of_ints l) = (4 * length l)%nat
  /\ load_int buf idx = Int32.wrap (nth (Z.to_nat idx) l 0)
  /\ (Int32.in_range (nth (Z.to_nat idx) l 0) ->
      load_int buf idx = nth (Z.to_nat idx) l 0).
Proof.
  intros Hidx buf.
  assert (E : load_int buf idx = Int32.wrap (nth (Z.to_nat idx) l 0)).
  { apply load_int_bytes_of_ints; [exact Hidx | reflexivity]. }
  split; [rewrite bytes_of_ints_length; lia | split; [exact E|]].
  intros Hin. rewrite E. now apply Int32Facts.wrap_small.
Qed.

Lemma int_array_round_trip_witness :
  load_int (fun a => nth (Z.to_nat a) (bytes_of_ints [56; -7; 164]) Byte.x00) 1
  = nth (Z.to_nat 1) [56; -7; 164] 0.
Proof.
  refine (proj2 (proj2 (int_array_round_trip [56; -7; 164] 1 _)) _).
  - simpl. lia.
  - unfold Int32.in_range, Int32.min_signed, Int32.max_signed. simpl. lia.
Defined.

Lemma rows_equal_iff (N : Z) (M M' : Matrix) :
  map (fun i => map (fun j => M i j) (zrange 0 N)) (zrange 0 N)
  = map (fun i => map (fun j => M' i j) (zrange 0 N)) (zrange 0 N)
  <-> forall i j, 0 <= i < N -> 0 <= j < N -> M i j = M' i j.
Proof.
  rewrite map_ext_in_iff. split.
  - intros H i j Hi Hj.
    specialize (H i ltac:(apply in_zrange; lia)). cbv beta in H.
    rewrite map_ext_in_iff in H. apply H. apply in_zrange. lia.
  - intros H i Hi. apply in_zrange in Hi. apply map_ext_in_iff.
    intros j Hj. apply in_zrange in Hj. apply H; lia.
Qed.

(** X16: [compare_results] returns 0 exactly when [print_matrix] prints the
    same numbers for [C] and for [C_ref], and 1 exactly when the two
    printouts differ. *)
Theorem verdict_matches_printout (N : Z) (g : globals) :
  (compare_results N g = 0
   <-> print_matrix N (C g) = print_matrix N (C_ref g))
  /\ (compare_results N g = 1
      <-> print_matrix N (C g) <> print_matrix N (C_ref g)).
Proof.
  assert (P : print_matrix N (C g) = print_matrix N (C_ref g)
              <-> forall i j, 0 <= i < N -> 0 <= j < N -> C g i j = C_ref g i j).
  { unfold print_matrix. rewrite <- rows_equal_iff.
    split; [intros [= H]; exact H | intros ->; reflexivity]. }
  destruct (compare_results_spec N g)
    as [(E & Hall)|(E & i & j & Hi & Hj & Hne)]; rewrite E.
  - split; split.
    + intros _. apply P. exact Hall.
    + reflexivity.
    + discriminate.
    + intros H. exfalso. apply H. apply P. exact Hall.
  - split; split.
    + discriminate.
    + intros H. exfalso. apply Hne. apply (proj1 P H); assumption.
    + intros _ H. apply Hne. apply (proj1 P H); assumption.
    + reflexivity.
Qed.

Module PerfFacts.
Import Perf.

Lemma sub64_elapsed (x y : Z) :
  is_uint64 x -> is_uint64 y -> elapsed x y (sub64 y x).
Proof.
  unfold elapsed, is_uint64, sub64. intros H1 H2.
  assert (Hle : x <= y -> (y - x) mod 2 ^ 64 = y - x)
    by (intros H; apply Z.mod_small; lia).
  assert (Hlt : y < x -> (y - x) mod 2 ^ 64 = y - x + 2 ^ 64).
  { intros H. symmetry. apply (Z.mod_unique _ _ (-1)); lia. }
  split; [apply Z.mod_pos_bound; lia | split; [|split; assumption]].
  rewrite Zplus_mod_idemp_r. replace (x + (y - x)) with y by lia.
  apply Z.mod_small. lia.
Qed.

(** X18: [main] of [user/perf.c] prints, for each of the three counters, what
    the counter has advanced by between the two readings, also when the
    counter went round once in between, and exits with status 0. *)
Theorem deltas_modulo (c1 t1 i1 c2 t2 i2 : Z) :
  is_uint64 c1 -> is_uint64 t1 -> is_uint64 i1 ->
  is_uint64 c2 -> is_uint64 t2 -> is_uint64 i2 ->
  exists d dt di,
    main c1 t1 i1 c2 t2 i2 = ([Cycles d; Time dt; Instructions di], 0)
    /\ elapsed c1 c2 d /\ elapsed t1 t2 dt /\ elapsed i1 i2 di.
Proof.
  intros Hc1 Ht1 Hi1 Hc2 Ht2 Hi2.
  exists (sub64 c2 c1), (sub64 t2 t1), (sub64 i2 i1).
  split; [reflexivity|]. repeat split; apply sub64_elapsed; assumption.
Qed.

Lemma deltas_modulo_witness :
  exists d dt di,
    main (2 ^ 64 - 5) 4 0 10 7 3 = ([Cycles d; Time dt; Instructions di], 0)
    /\ elapsed (2 ^ 64 - 5) 10 d /\ elapsed 4 7 dt /\ elapsed 0 3 di.
Proof.
  apply (deltas_modulo (2 ^ 64 - 5) 4 0 10 7 3); unfold is_uint64; lia.
Defined.

End PerfFacts.
